(** * candidate_models: the PyTorch model adapter and the score report

    A shallow embedding of
    - [candidate_models/models/implementations/pytorch.py]
      ([PytorchModel]: [_load_image], [_get_activations] with its
      [walk_pytorch_module], [_layers]), and
    - [candidate_models/plot/global_score.py]
      ([prepare_data], [parse_bib], the trend fit of [_plot_score]),
    followed by the properties of these functions.

    Python values are modelled as follows.  A [str] is a [string]; a
    function that may raise returns a [result]; a generator is the list of
    the values it yields together with the exception that ends it, if any;
    an [OrderedDict] is an association list in insertion order; a plain
    [dict] read by key is a [gmap]; a float64 is the rational it denotes or
    NaN.  Copies, comparisons and the mean of a single value are exact in
    float64; a product, a difference and a decimal literal are rounded to
    the nearest float64.  Infinities are outside the model.  A tensor of
    the forward pass is the memory it lives in and its shape, so that an
    array sharing that memory sees what is written to it later.  pandas is
    modelled as its versions 1.x behave. *)

From Stdlib Require Import Ascii String QArith Qround Qabs.
From stdpp Require Import base option list strings gmap.

#[local] Set Warnings "-clear-no-such-hyp".


(** ** Python exceptions and results *)

Inductive exn : Type :=
| AssertionError (msg : string)
| TypeError (msg : string)
| ValueError (msg : string)
| KeyError (key : string)
| AxisError (msg : string)
| IndexError (msg : string)
| RuntimeError (msg : string)
| OSError (msg : string)
| PybtexError (msg : string).

Inductive result (A : Type) : Type :=
| Ok (a : A)
| Raise (e : exn).
Arguments Ok {A} a.
Arguments Raise {A} e.

#[global] Instance result_ret : MRet result := fun A a => Ok a.
#[global] Instance result_bind : MBind result := fun A B f m =>
  match m with
  | Ok a => f a
  | Raise e => Raise e
  end.
#[global] Instance result_fmap : FMap result := fun A B f m =>
  match m with
  | Ok a => Ok (f a)
  | Raise e => Raise e
  end.

(** [assert cond, msg] *)
Definition py_assert (cond : bool) (msg : string) : result unit :=
  if cond then Ok tt else Raise (AssertionError msg).

(** A comprehension or loop whose body may raise: left to right, stopping at
    the first exception. *)
Fixpoint for_each {A B : Type} (f : A → result B) (l : list A) : result (list B) :=
  match l with
  | [] => Ok []
  | a :: l' => b ← f a; bs ← for_each f l'; Ok (b :: bs)
  end.

(** ** Generators

    What a consumer of the generator observes: the values yielded, in order,
    and then either exhaustion ([None]) or an exception. *)

Definition gen (A : Type) : Type := (list A * option exn)%type.

Definition gen_return {A : Type} : gen A := ([], None).
Definition gen_raise {A : Type} (e : exn) : gen A := ([], Some e).
Definition gen_yield {A : Type} (a : A) (rest : gen A) : gen A :=
  (a :: rest.1, rest.2).

(** [yield from g] followed by [rest] *)
Definition yield_from {A : Type} (g rest : gen A) : gen A :=
  match g.2 with
  | None => (g.1 ++ rest.1, rest.2)
  | Some e => (g.1, Some e)
  end.

(** ** Strings *)

(** [s.split(sep)] for a one-character separator. *)
Fixpoint str_split (sep : ascii) (s : string) : list string :=
  match s with
  | EmptyString => [EmptyString]
  | String c s' =>
      if Ascii.eqb c sep then EmptyString :: str_split sep s'
      else match str_split sep s' with
           | [] => [String c EmptyString]
           | w :: ws => String c w :: ws
           end
  end.

(** [sep.join(parts)] *)
Fixpoint str_join (sep : string) (parts : list string) : string :=
  match parts with
  | [] => ""
  | [p] => p
  | p :: ps => p +:+ sep +:+ str_join sep ps
  end.

(** ** OrderedDict *)

Module OrderedDict.
Definition t (V : Type) : Type := list (string * V).

Fixpoint get {V : Type} (d : t V) (k : string) : option V :=
  match d with
  | [] => None
  | (k', v) :: d' => if String.eqb k' k then Some v else get d' k
  end.

(** [d[k] = v]: an existing key keeps its position. *)
Fixpoint set {V : Type} (d : t V) (k : string) (v : V) : t V :=
  match d with
  | [] => [(k, v)]
  | (k', v') :: d' =>
      if String.eqb k' k then (k', v) :: d' else (k', v') :: set d' k v
  end.

Definition keys {V : Type} (d : t V) : list string := d.*1.
Definition values {V : Type} (d : t V) : list V := d.*2.
End OrderedDict.

(** ** Floats

    A float64 is modelled by the rational it denotes, or NaN.  Comparisons
    follow IEEE 754 as Python exposes it: every comparison with NaN is
    false, except [!=], which is true. *)

Inductive float : Type :=
| NaN
| Fin (q : Q).

Definition float_eqb (a b : float) : bool :=
  match a, b with
  | Fin p, Fin q => Qeq_bool p q
  | _, _ => false
  end.

(** [a != b] *)
Definition float_ne (a b : float) : bool := negb (float_eqb a b).

(** [a > b] *)
Definition float_gt (a b : float) : bool :=
  match a, b with
  | Fin p, Fin q => negb (Qle_bool p q)
  | _, _ => false
  end.

Definition isnan (a : float) : bool :=
  match a with
  | NaN => true
  | Fin _ => false
  end.

(** The sum and the quotient of [np.mean], which this program takes of one
    value at a time: nothing is rounded there. *)
Definition float_add (a b : float) : float :=
  match a, b with
  | Fin p, Fin q => Fin (p + q)
  | _, _ => NaN
  end.

(** Rounding to float64: 53 significant bits, the nearest value, a tie to
    the even one, with the subnormal numbers below [2^-1022].  [ilog2 q] is
    the exponent of the leading bit of a positive [q]. *)
Definition ilog2 (q : Q) : Z :=
  let k := (Z.log2 (Qnum q) - Z.log2 (Zpos (Qden q)))%Z in
  if Qle_bool (2 ^ k) q then k else (k - 1)%Z.

Definition round_half_even (q : Q) : Z :=
  let f := Qfloor q in
  match Qcompare (q - inject_Z f) (1 # 2) with
  | Lt => f
  | Gt => (f + 1)%Z
  | Eq => if Z.even f then f else (f + 1)%Z
  end.

Definition round64 (q : Q) : Q :=
  if Qeq_bool q 0 then 0
  else
    let e := Z.max (ilog2 (Qabs q) - 52) (-1074) in
    let m := round_half_even (Qabs q / 2 ^ e) in
    Qred ((if Qle_bool 0 q then 1 else -1) * inject_Z m * 2 ^ e).

(** The float64 that a decimal literal of the source denotes. *)
Definition float_literal (q : Q) : float := Fin (round64 q).

(** [a - b] and [a * b] *)
Definition float_sub (a b : float) : float :=
  match a, b with
  | Fin p, Fin q => Fin (round64 (p - q))
  | _, _ => NaN
  end.

Definition float_mul (a b : float) : float :=
  match a, b with
  | Fin p, Fin q => Fin (round64 (p * q))
  | _, _ => NaN
  end.

(** Two floats denote the same value. *)
Definition float_same (a b : float) : Prop :=
  match a, b with
  | NaN, NaN => True
  | Fin p, Fin q => p == q
  | _, _ => False
  end.

(** ** torch.nn.Module

    A module object has an identity ([ident], what [id(module)] is in
    Python), a class and the ordered mapping [_modules] of its named
    children. *)

#[local] Unset Elimination Schemes.
Inductive Module : Type :=
  Mod { ident : nat; class_name : string; _modules : OrderedDict.t Module }.

#[local] Set Elimination Schemes.

Definition SUBMODULE_SEPARATOR : ascii := "."%char.
Definition sep : string := String SUBMODULE_SEPARATOR "".

(** *** [walk_pytorch_module] *)

Definition no_submodule_msg (layer_name part : string) : string :=
  "No submodule found for layer " +:+ layer_name +:+ ", at part " +:+ part.

Fixpoint walk_parts (layer_name : string) (module : Module) (parts : list string)
  : result Module :=
  match parts with
  | [] => Ok module
  | part :: parts' =>
      match OrderedDict.get (_modules module) part with
      | None => Raise (AssertionError (no_submodule_msg layer_name part))
      | Some module' => walk_parts layer_name module' parts'
      end
  end.

Definition walk_pytorch_module (module : Module) (layer_name : string) : result Module :=
  walk_parts layer_name module (str_split SUBMODULE_SEPARATOR layer_name).

(** *** [_layers] *)

Definition none_plus_str : exn :=
  TypeError "unsupported operand type(s) for +: 'NoneType' and 'str'".

Fixpoint _layers (module : Module) (name_prefix : option string) : gen (string * Module) :=
  match module with
  | Mod _ cls [] =>
      match name_prefix with
      | None => gen_raise none_plus_str
      | Some p => gen_yield (p +:+ sep +:+ cls, module) gen_return
      end
  | Mod _ _ subs =>
      (fix items (subs : OrderedDict.t Module) : gen (string * Module) :=
         match subs with
         | [] => gen_return
         | (submodule_name, submodule) :: subs' =>
             let submodule_prefix :=
               match name_prefix with
               | Some p => p +:+ sep +:+ submodule_name
               | None => submodule_name
               end in
             yield_from (_layers submodule (Some submodule_prefix)) (items subs')
         end) subs
  end.

Definition layers (model : Module) : gen (string * Module) := _layers model None.

(** *** [_get_activations]

    The images arrive as arrays of one shape; [torch.stack] puts the batch
    dimension in front. *)

Record ndarray : Type := Array { shape : list nat; data : list float }.

Definition torch_stack (images : list ndarray) : result ndarray :=
  match images with
  | [] => Raise (RuntimeError "stack expects a non-empty TensorList")
  | image :: _ =>
      if forallb (fun other => bool_decide (shape other = shape image)) images
      then Ok (Array (length images :: shape image) (concat (data <$> images)))
      else Raise (RuntimeError "stack expects each tensor to be equal size")
  end.

(** The forward pass belongs to torch and to the network.  What
    [_get_activations] sees of [self._model(images)] in evaluation mode is a
    sequence of steps.  An operation writes the memory of a tensor: it makes
    a new tensor, or it changes one in place, as [ReLU(inplace=True)] does.
    Or a submodule call completes, with the identity of the module called
    and the tensor it returns: after every such call torch runs the forward
    hooks registered on that module, in registration order.  The hooks below
    return [None], so they do not change any output.  Every module of the
    four networks returns a tensor. *)
Record Tensor : Type := { storage : nat; tensor_shape : list nat }.

Inductive step : Type :=
| Wrote (written : nat) (values : list float)
| Called (module : nat) (output : Tensor).

Definition forward_pass : Type := Module → ndarray → result (list step).

(** [self._device] *)
Inductive device : Type :=
| cpu
| cuda.

(** The memory of the tensors, by [storage]; the batch is tensor 0. *)
Definition memory : Type := gmap nat (list float).

Definition initial_memory (images : ndarray) : memory := {[ 0%nat := data images ]}.

Definition tensor_values (m : memory) (t : Tensor) : ndarray :=
  Array (tensor_shape t) (default [] (m !! storage t)).

(** A numpy array holds values of its own, or it is a view of the memory of
    a tensor. *)
Inductive numpy_array : Type :=
| Own (a : ndarray)
| View (t : Tensor).

(** [output.cpu().data.numpy()].  For a tensor on the CPU, [cpu()] returns
    the tensor itself, and [data] and [numpy()] share its memory; for a
    tensor on the GPU, [cpu()] copies it. *)
Definition cpu_data_numpy (dev : device) (m : memory) (output : Tensor) : numpy_array :=
  match dev with
  | cpu => View output
  | cuda => Own (tensor_values m output)
  end.

(** A registered hook: the module it is registered on and the [name] bound
    in the lambda. *)
Definition hook : Type := (nat * string)%type.

Definition store_layer_output (dev : device) (m : memory)
    (layer_results : OrderedDict.t numpy_array) (layer_name : string) (output : Tensor)
  : OrderedDict.t numpy_array :=
  OrderedDict.set layer_results layer_name (cpu_data_numpy dev m output).

Definition run_hooks (dev : device) (hooks : list hook) (m : memory)
    (layer_results : OrderedDict.t numpy_array) (module : nat) (output : Tensor)
  : OrderedDict.t numpy_array :=
  foldl (fun results h =>
           if Nat.eqb h.1 module then store_layer_output dev m results h.2 output
           else results)
        layer_results hooks.

Definition run_step (dev : device) (hooks : list hook)
    (state : memory * OrderedDict.t numpy_array) (s : step)
  : memory * OrderedDict.t numpy_array :=
  match s with
  | Wrote written values => (<[written := values]> state.1, state.2)
  | Called module output => (state.1, run_hooks dev hooks state.1 state.2 module output)
  end.

(** What the caller reads in an array once the forward pass is over. *)
Definition array_values (m : memory) (a : numpy_array) : ndarray :=
  match a with
  | Own a => a
  | View t => tensor_values m t
  end.

(** Hooks left on the modules by earlier calls store into the
    [layer_results] of those calls, not into this one, and are left out. *)
Definition _get_activations (dev : device) (forward : forward_pass) (model : Module)
    (images : list ndarray) (layer_names : list string)
  : result (OrderedDict.t ndarray) :=
  images ← torch_stack images;
  hooks ← for_each (fun layer_name =>
                      layer ← walk_pytorch_module model layer_name;
                      Ok (ident layer, layer_name))
                   layer_names;
  steps ← forward model images;
  let state := foldl (run_step dev hooks) (initial_memory images, []) steps in
  Ok (prod_map id (array_values state.1) <$> state.2).

(** ** PIL images

    An image has a mode (["L"], ["RGB"], ...), a size (width, height) and
    its pixel rows, a pixel being the list of its band values. *)

Module Image.
Record t : Type := Make { mode : string; size : nat * nat; pixels : list (list (list Z)) }.

Definition bands (mode : string) : option nat :=
  if bool_decide (mode ∈ ["1"; "L"; "P"; "I"; "F"]) then Some 1
  else if bool_decide (mode = "LA") then Some 2
  else if bool_decide (mode ∈ ["RGB"; "YCbCr"; "LAB"; "HSV"]) then Some 3
  else if bool_decide (mode ∈ ["RGBA"; "CMYK"]) then Some 4
  else None.

(** [Image.new(mode, size)]: the default colour is 0 in every band. *)
Definition new (mode : string) (size : nat * nat) : result t :=
  match bands mode with
  | None => Raise (ValueError "unrecognized image mode")
  | Some n => Ok (Make mode size (replicate size.2 (replicate size.1 (replicate n 0%Z))))
  end.

Definition copy (self : t) : t := Make (mode self) (size self) (pixels self).

(** The part of [dst] that [src] covers is replaced by [src]. *)
Fixpoint overlay {A : Type} (put : A → A → A) (dst src : list A) : list A :=
  match dst, src with
  | d :: dst', s :: src' => put d s :: overlay put dst' src'
  | _, _ => dst
  end.

(** [self.paste(im)] without a box: [im] goes to the upper left corner,
    after [convert] has brought it to the mode of [self] when the modes
    differ. *)
Definition paste (convert : string → t → t) (self im : t) : t :=
  let im := if String.eqb (mode self) (mode im) then im else convert (mode self) im in
  Make (mode self) (size self)
       (overlay (overlay (fun _ pixel => pixel)) (pixels self) (pixels im)).

(** What [convert("RGB")] makes of a grayscale pixel row: the gray value
    in each of the three bands. *)
Definition gray_to_rgb (self : t) : t :=
  Make "RGB" (size self)
       (fmap (M := list) (fmap (M := list) (fun pixel =>
          match pixel with
          | v :: _ => [v; v; v]
          | [] => []
          end)) (pixels self)).
End Image.

Definition ascii_upper (c : ascii) : ascii :=
  let n := nat_of_ascii c in
  if (97 <=? n)%nat && (n <=? 122)%nat then ascii_of_nat (n - 32) else c.

(** [s.upper()] *)
Fixpoint str_upper (s : string) : string :=
  match s with
  | EmptyString => EmptyString
  | String c s' => String (ascii_upper c) (str_upper s')
  end.

(** [Image.open] reads the file system and [convert] is PIL's mode
    conversion; both are parameters.  The second branch rebinds [image] to
    the new blank image before pasting, as the source does. *)
Definition _load_image (image_open : string → result Image.t)
    (convert : string → Image.t → Image.t) (image_filepath : string)
  : result Image.t :=
  image ← image_open image_filepath;
  if negb (String.eqb (str_upper (Image.mode image)) "L") then
    Ok (Image.copy image)
  else
    image ← Image.new "RGB" (Image.size image);
    let image := Image.paste convert image image in
    Ok image.

(** * [global_score.py] *)

(** ** The trend fit of [_plot_score]

    [x] and [y] are the arrays as line 518 leaves them, reordered by
    [np.argsort(x)].  The loop of the ['convex'] policy carries [curr_x] and
    [curr_y] and appends [curr_y] for every point. *)

Definition convex_step (curr : float * float) (point : float * float) : float * float :=
  let '(curr_x, curr_y) := curr in
  let '(_x, _y) := point in
  if float_ne _x curr_x then (_x, _y)
  else if float_gt _y curr_y then (curr_x, _y)
  else (curr_x, curr_y).

Fixpoint convex_loop (curr : float * float) (points : list (float * float)) : list float :=
  match points with
  | [] => []
  | point :: points' =>
      let curr' := convex_step curr point in
      curr'.2 :: convex_loop curr' points'
  end.

Definition convex_fit (x y : list float) : list float :=
  convex_loop (Fin 0, Fin (-99999)) (zip x y).

(** ** [models.csv] and the dictionaries read from it *)

Record meta_row : Type := MetaRow {
  meta_model : string;
  top1 : float;
  behav_r : float;
  meta_link : option string;
  meta_bibtex : option string
}.

(** [{row['model']: row[column] for _, row in model_meta.iterrows()}]: a
    later row replaces an earlier one of the same model. *)
Definition column_dict (column : meta_row → float) (model_meta : list meta_row)
  : gmap string float :=
  foldl (fun d row => <[meta_model row := column row]> d) ∅ model_meta.

Definition model_performance (model_meta : list meta_row) : gmap string float :=
  <["squeezenet" := float_literal 0.575]>
    (<["alexnet" := float_sub (Fin 1) (float_literal 0.4233)]> (column_dict top1 model_meta)).

Definition model_behavior (model_meta : list meta_row) : gmap string float :=
  column_dict behav_r model_meta.

(** ** [parse_neural_data]

    One row per model with the columns of the two regions.  [neural_fit
    region model] stands for the score of [score_physiology], maximised over
    the layers: its center and its error.  [neural_csv] is the content of
    the file [neural.csv], if the file exists. *)

Record neural_row : Type := NeuralRow {
  model : string;
  v4 : float; v4_error : float;
  it : float; it_error : float
}.

Definition parse_neural_data (neural_fit : string → string → result (float * float))
    (neural_csv : option (list neural_row)) (models : list string)
  : result (list neural_row * option (list neural_row)) :=
  match neural_csv with
  | Some saved => Ok (saved, neural_csv)
  | None =>
      v4s ← for_each (neural_fit "V4") models;
      its ← for_each (neural_fit "IT") models;
      let data :=
        (fun '(m, (v, i)) => NeuralRow m v.1 v.2 i.1 i.2) <$> zip models (zip v4s its) in
      Ok (data, Some data)
  end.

(** ** pandas and numpy *)

(** [data[column] = values] *)
Definition set_column {A B : Type} (data : list A) (values : list B) : result (list (A * B)) :=
  if (length values =? length data)%nat then Ok (zip data values)
  else Raise (ValueError "Length of values does not match length of index").

(** [column[keys == key].values[0]] *)
Definition first_where (keys : list string) (column : list float) (key : string)
  : result float :=
  match filter (fun kv => kv.1 = key) (zip keys column) with
  | [] => Raise (IndexError "index 0 is out of bounds for axis 0 with size 0")
  | kv :: _ => Ok kv.2
  end.

Definition float_div_count (a : float) (n : nat) : float :=
  match a, n with
  | _, O => NaN
  | NaN, _ => NaN
  | Fin p, _ => Fin (p / inject_Z (Z.of_nat n))
  end.

Definition np_mean (xs : list float) : float :=
  float_div_count (foldl float_add (Fin 0) xs) (length xs).

(** [np.mean(rows, axis=1)]: without rows the array has one dimension and
    there is no axis 1. *)
Definition np_mean_axis1 (rows : list (list float)) : result (list float) :=
  match rows with
  | [] => Raise (AxisError "axis 1 is out of bounds for array of dimension 1")
  | _ => Ok (np_mean <$> rows)
  end.

(** [series.rank(ascending=False)] with pandas' defaults: equal values share
    the average of the positions they take, and NaN has no rank. *)
Definition rank_descending (series : list float) : list float :=
  (fun x =>
     match x with
     | NaN => NaN
     | Fin _ =>
         let above := length (filter (fun y => float_gt y x = true) series) in
         let tied := length (filter (fun y => float_eqb y x = true) series) in
         Fin (Qred (inject_Z (Z.of_nat (2 * above + tied + 1)) / 2))
     end) <$> series.

(** ** [prepare_data] *)

Record score_row : Type := ScoreRow {
  neural : neural_row;
  i2n : float;
  performance : float;
  global : float
}.

Record row : Type := Row {
  scores : score_row;
  rank : float;
  link : option string;
  bibtex : option string
}.

(** The list assigned to [data['i2n']]. *)
Definition i2n_values (behavior : gmap string float) (model_column : list string) : list float :=
  (fun name => default NaN (behavior !! name))
    <$> filter (fun name => name ≠ "cornet") model_column.

Definition i2n_column (behavior : gmap string float) (data : list neural_row)
  : result (list (neural_row * float)) :=
  set_column data (i2n_values behavior (model <$> data)).

(** The list assigned to [data['performance']]. *)
Definition performance_values (perf : gmap string float) (model_column : list string)
  : result (list float) :=
  for_each (fun name =>
              match perf !! name with
              | Some p => Ok (float_mul (Fin 100) p)
              | None => Raise (KeyError name)
              end) model_column.

(** [global_scores]: one list per row, holding the behavioral score alone. *)
Definition global_scores (model_column : list string) (i2n_col : list float)
  : result (list (list float)) :=
  for_each (fun name => x ← first_where model_column i2n_col name; Ok [x]) model_column.

(** The distinct keys in the order in which they first occur: the order of
    the codes that pandas' factorization gives the keys of the left table. *)
Fixpoint factorize (keys : list string) : list string :=
  match keys with
  | [] => []
  | key :: keys' => key :: filter (fun k => k ≠ key) (factorize keys')
  end.

(** The rows that the join makes of one row of the table. *)
Definition merge_rows (model_meta : list meta_row) (r : score_row * float) : list row :=
  meta ← filter (fun meta => meta_model meta = model (neural r.1)) model_meta;
  [Row r.1 r.2 (meta_link meta) (meta_bibtex meta)].

(** [data.merge(model_meta[['model', 'link', 'bibtex']], on='model')]: an
    inner join, as pandas computes it up to version 2.1.  It goes through the
    keys in the order in which they first occur in [data]; for each key it
    pairs every row of [data] that has the key, in order, with every row of
    [model_meta] that has it, in order.  (From version 2.2 on the result
    keeps the order of the rows of [data]; the two agree when no model
    occurs twice in [data].) *)
Definition merge_meta (ranked : list (score_row * float)) (model_meta : list meta_row)
  : list row :=
  key ← factorize ((fun r => model (neural r.1)) <$> ranked);
  r ← filter (fun r => model (neural r.1) = key) ranked;
  merge_rows model_meta r.

(** *** [_create_fixture] *)

Record Person : Type := { last : list string }.

Record Entry : Type := {
  fields : OrderedDict.t string;
  persons : OrderedDict.t (list Person)
}.

(** [parse_string] stands for [bibtex.Parser().parse_string(s).entries]. *)
Definition parse_bib (parse_string : string → result (OrderedDict.t Entry))
    (bibtex_str : string) : result Entry :=
  entry ← parse_string bibtex_str;
  _ ← py_assert (length entry =? 1)%nat "";
  match OrderedDict.values entry with
  | first :: _ => Ok first
  | [] => Raise (IndexError "list index out of range")
  end.

Definition has_nan (r : row) : bool :=
  let s := scores r in
  let n := neural s in
  isnan (v4 n) || isnan (v4_error n) || isnan (it n) || isnan (it_error n)
  || isnan (i2n s) || isnan (performance s) || isnan (global s) || isnan (rank r)
  || bool_decide (link r = None) || bool_decide (bibtex r = None).

Definition getitem {V : Type} (d : OrderedDict.t V) (key : string) : result V :=
  match OrderedDict.get d key with
  | Some v => Ok v
  | None => Raise (KeyError key)
  end.

Definition authors_of (entry : Entry) : result string :=
  author ← getitem (persons entry) "author";
  match author with
  | [] => Raise (IndexError "list index out of range")
  | person :: _ => Ok (str_join " " (last person) +:+ " et al.")
  end.

Record fixture_fields : Type := {
  brain_score : float; name : string; imagenet_top1 : float;
  fixture_v4 : float; fixture_it : float; behavior : float;
  paper_link : string; paper_identifier : string
}.

(** What pandas raises when a frame of several columns is assigned to one
    column. *)
Definition frame_to_column (column : string) : exn :=
  ValueError ("Cannot set a DataFrame with multiple columns to the single column "
              +:+ column).

(** [data[column] = data[[a, b]].apply(f, axis=1)].  On a frame without rows
    [apply] does not call [f] row by row: it tries [f] on a row of missing
    values, where [", ".join] fails, and then returns a copy of the frame,
    which cannot be assigned to one column. *)
Definition set_column_apply {A B C : Type} (column : string) (f : A → B → C)
    (a : list A) (b : list B) : result (list C) :=
  match a with
  | [] => Raise (frame_to_column column)
  | _ => Ok (zip_with f a b)
  end.

(** The rows dumped to [fixture.json].  The three [apply] calls on [bibs] run
    one after the other, each over all rows. *)
Definition _create_fixture (parse_string : string → result (OrderedDict.t Entry))
    (data : list row) : result (list fixture_fields) :=
  let data := filter (fun r => has_nan r = false) data in
  bibs ← for_each (fun r => parse_bib parse_string (default "" (bibtex r))) data;
  authors ← for_each authors_of bibs;
  year ← for_each (fun entry => getitem (fields entry) "year") bibs;
  identifier ← set_column_apply "identifier" (fun a y => str_join ", " [a; y]) authors year;
  Ok ((fun '(r, id) =>
         let s := scores r in
         {| brain_score := global s; name := model (neural s);
            imagenet_top1 := performance s;
            fixture_v4 := v4 (neural s); fixture_it := it (neural s);
            behavior := i2n s;
            paper_link := default "" (link r);
            paper_identifier := id |}) <$> zip data identifier).

(** *** The body of [prepare_data] after [parse_neural_data]

    [_create_latex_table] formats and writes [data.tex]; it is a parameter
    and, like [_create_fixture], leaves [data] as it is. *)

Record library : Type := {
  neural_fit : string → string → result (float * float);
  parse_string : string → result (OrderedDict.t Entry);
  _create_latex_table : list row → result unit
}.

Definition score_table (lib : library) (model_meta : list meta_row)
    (models : list string) (data : list neural_row) : result (list row) :=
  let model_column := model <$> data in
  with_i2n ← i2n_column (model_behavior model_meta) data;
  let i2n_col := with_i2n.*2 in
  perf ← performance_values (model_performance model_meta) model_column;
  scores ← global_scores model_column i2n_col;
  glob ← np_mean_axis1 scores;
  let data :=
    (fun '(n, (b, (p, g))) => ScoreRow n b p g)
      <$> zip data (zip i2n_col (zip perf glob)) in
  let data := filter (fun s => model (neural s) ∈ models) data in
  let data := zip data (rank_descending (global <$> data)) in
  let data := merge_meta data model_meta in
  _ ← _create_fixture (parse_string lib) data;
  _ ← _create_latex_table lib data;
  Ok data.

(** [prepare_data]: the state of [neural.csv] afterwards, and the table or
    the exception. *)
Definition prepare_data (lib : library) (model_meta : list meta_row)
    (models : list string) (neural_csv : option (list neural_row))
  : option (list neural_row) * result (list row) :=
  match parse_neural_data (neural_fit lib) neural_csv models with
  | Raise e => (neural_csv, Raise e)
  | Ok (data, neural_csv') => (neural_csv', score_table lib model_meta models data)
  end.

(** * What the specification says, as definitions *)

(** A layer name resolves when every part of it names a child of the module
    reached so far. *)
Fixpoint descend (module : Module) (parts : list string) : option Module :=
  match parts with
  | [] => Some module
  | part :: parts' =>
      child ← OrderedDict.get (_modules module) part;
      descend child parts'
  end.

(** [s] names [part]: [part] occurs in it. *)
Definition mentions (s part : string) : Prop :=
  ∃ before after, s = before +:+ part +:+ after.

(** [at_path root path m]: following [path] down from [root] ends in [m]. *)
Inductive at_path : Module → list string → Module → Prop :=
| at_root m : at_path m [] m
| at_child m child_name child path m' :
    (child_name, child) ∈ _modules m →
    at_path child path m' →
    at_path m (child_name :: path) m'.

(** The leaves below [module], depth first, each with its path from the
    root; [path] is the path of [module] itself. *)
Fixpoint leaf_paths (module : Module) (path : list string) : list (list string * Module) :=
  match module with
  | Mod _ _ [] => [(path, module)]
  | Mod _ _ subs =>
      (fix children (subs : OrderedDict.t Module) : list (list string * Module) :=
         match subs with
         | [] => []
         | (child_name, child) :: subs' =>
             leaf_paths child (path ++ [child_name]) ++ children subs'
         end) subs
  end.

(** The name of a leaf: its dot-joined path, a dot, its class name. *)
Definition leaf_name (leaf : list string * Module) : string :=
  str_join sep leaf.1 +:+ sep +:+ class_name leaf.2.

(** * Examples and auxiliary definitions used in the statements and proofs *)

(** A small network in the shape of torchvision's AlexNet. *)
Definition small_net : Module :=
  Mod 0 "AlexNet"
    [("features", Mod 1 "Sequential"
        [("0", Mod 2 "Conv2d" []); ("1", Mod 3 "ReLU" [])]);
     ("classifier", Mod 4 "Sequential" [("0", Mod 5 "Linear" [])])].

(** [submodule_prefix] in [_layers], and the loop over
    [module._modules.items()] as a function of its own. *)
Definition child_prefix (name_prefix : option string) (submodule_name : string) : string :=
  match name_prefix with
  | Some p => p +:+ sep +:+ submodule_name
  | None => submodule_name
  end.

Fixpoint layers_of_items (name_prefix : option string) (subs : OrderedDict.t Module)
  : gen (string * Module) :=
  match subs with
  | [] => gen_return
  | (submodule_name, submodule) :: subs' =>
      yield_from (_layers submodule (Some (child_prefix name_prefix submodule_name)))
                 (layers_of_items name_prefix subs')
  end.

(** The inner loop of [leaf_paths]. *)
Fixpoint leaf_paths_of_items (path : list string) (subs : OrderedDict.t Module)
  : list (list string * Module) :=
  match subs with
  | [] => []
  | (child_name, child) :: subs' =>
      leaf_paths child (path ++ [child_name]) ++ leaf_paths_of_items path subs'
  end.

(** The leaves as [layers()] yields them. *)
Definition named (leaves : list (list string * Module)) : list (string * Module) :=
  (fun leaf => (leaf_name leaf, leaf.2)) <$> leaves.

(** The calls of a forward pass, each with the array that a hook makes of
    its output, and the memory after the pass. *)
Fixpoint captures (dev : device) (m : memory) (steps : list step)
  : list (nat * numpy_array) :=
  match steps with
  | [] => []
  | Wrote written values :: steps' => captures dev (<[written := values]> m) steps'
  | Called module output :: steps' =>
      (module, cpu_data_numpy dev m output) :: captures dev m steps'
  end.

Definition memory_after (m : memory) (steps : list step) : memory :=
  foldl (fun m s =>
           match s with
           | Wrote written values => <[written := values]> m
           | Called _ _ => m
           end) m steps.

(** The hooks on the module of [call] store its value, in registration
    order. *)
Definition store_all {V : Type} (hooks : list hook) (results : OrderedDict.t V)
    (call : nat * V) : OrderedDict.t V :=
  foldl (fun results h =>
           if Nat.eqb h.1 call.1 then OrderedDict.set results h.2 call.2 else results)
        results hooks.

(** A hook of [hooks] fires on [call] and stores under [k]. *)
Definition fires {V : Type} (hooks : list hook) (call : nat * V) (k : string) : Prop :=
  ∃ h, h ∈ hooks ∧ h.1 = call.1 ∧ h.2 = k.

(** Some hook of [hooks] is on the module of [call] and stores under [k]. *)
Definition stores {V : Type} (hooks : list hook) (k : string) (call : nat * V) : bool :=
  existsb (fun h => Nat.eqb h.1 call.1 && String.eqb h.2 k) hooks.

(** The forward pass calls the module [id]. *)
Definition calls (steps : list step) (id : nat) : Prop :=
  ∃ output, Called id output ∈ steps.

(** A forward pass over [small_net]: the convolution makes a tensor, the
    ReLU changes it in place, [features] returns it; the classifier makes
    another, which the network returns. *)
Definition small_forward : forward_pass := fun _ batch =>
  let n := default 0%nat (head (shape batch)) in
  let out (at_ width : nat) := {| storage := at_; tensor_shape := [n; width] |} in
  Ok [Wrote 1 (replicate (n * 4) (Fin (-1))); Called 2 (out 1 4);
      Wrote 1 (replicate (n * 4) (Fin 0)); Called 3 (out 1 4); Called 1 (out 1 4);
      Wrote 2 (replicate (n * 2) (Fin 3)); Called 5 (out 2 2); Called 4 (out 2 2);
      Called 0 (out 2 2)]%nat.



(** A batch of two images of shape 3 x 1 x 1. *)
Definition two_images : list ndarray :=
  [Array [3; 1; 1]%nat [Fin 0.1; Fin 0.2; Fin 0.3];
   Array [3; 1; 1]%nat [Fin 0.4; Fin 0.5; Fin 0.6]].

(** The file of a grayscale image of one white pixel. *)
Definition white_pixel : Image.t := Image.Make "L" (1, 1)%nat [[[255%Z]]].



(** How many values of the series lie above [x], and how many equal it. *)
Definition above (x : float) (series : list float) : nat :=
  length (filter (fun y => float_gt y x = true) series).

Definition tied (x : float) (series : list float) : nat :=
  length (filter (fun y => float_eqb y x = true) series).

(** What pandas raises when a list of the wrong length is assigned to a
    column. *)
Definition length_mismatch : exn :=
  ValueError "Length of values does not match length of index".

(** A bibliography entry. *)
Definition example_entry : Entry :=
  {| fields := [("year", "2012"); ("title", "ImageNet classification")];
     persons := [("author", [{| last := ["Krizhevsky"] |}; {| last := ["Sutskever"] |}])] |}.

(** A parser that knows three strings: one entry, none, two. *)
Definition example_parse (s : string) : result (OrderedDict.t Entry) :=
  if String.eqb s "@article{krizhevsky2012, ...}" then Ok [("krizhevsky2012", example_entry)]
  else if String.eqb s "" then Ok []
  else if String.eqb s "@article{a, ...} @article{b, ...}"
       then Ok [("a", example_entry); ("b", example_entry)]
  else Raise (PybtexError "syntax error").

(** Two rows of [models.csv] and stand-ins for the libraries. *)
Definition example_meta : list meta_row :=
  [MetaRow "alexnet" (float_literal 0.577) (Fin 0.37) (Some "https://arxiv.org/abs/1404.5997")
     (Some "@article{krizhevsky2012, ...}");
   MetaRow "resnet-18" (float_literal 0.6976) (Fin 0.42)
     (Some "https://arxiv.org/abs/1512.03385")
     (Some "@article{krizhevsky2012, ...}")].

Definition example_lib : library :=
  {| neural_fit := fun region _ =>
       if String.eqb region "V4" then Ok (Fin 0.6, Fin 0.01) else Ok (Fin 0.5, Fin 0.02);
     parse_string := example_parse;
     _create_latex_table := fun _ => Ok tt |}.

(** Rows as [neural.csv] may hold them. *)
Definition saved_alexnet : neural_row :=
  NeuralRow "alexnet" (Fin 0.6) (Fin 0.01) (Fin 0.5) (Fin 0.02).

Definition saved_cornet : neural_row :=
  NeuralRow "cornet" (Fin 0.6) (Fin 0.01) (Fin 0.5) (Fin 0.02).

(** * Further functions of the two files, and definitions for their properties *)

(** [c] occurs in [s]. *)
Fixpoint has_char (c : ascii) (s : string) : bool :=
  match s with
  | EmptyString => false
  | String c' s' => Ascii.eqb c' c || has_char c s'
  end.

(** What torch guarantees of a module tree: the children of a module have
    distinct names ([_modules] is a dictionary), [add_module] refuses a name
    with a dot, and a class name is an identifier. *)
#[local] Unset Elimination Schemes.
Inductive well_formed : Module → Prop :=
| well_formed_module id cls subs :
    has_char SUBMODULE_SEPARATOR cls = false →
    NoDup subs.*1 →
    Forall (fun kv => has_char SUBMODULE_SEPARATOR kv.1 = false ∧ well_formed kv.2) subs →
    well_formed (Mod id cls subs).
#[local] Set Elimination Schemes.

(** A forward pass that runs the ReLU of [small_net] twice, in place on the
    tensor of the convolution, and never runs the classifier. *)
Definition twice_forward : forward_pass := fun _ _ =>
  Ok [Wrote 1 (replicate 8 (Fin (-1))); Called 2 {| storage := 1; tensor_shape := [2; 4] |};
      Wrote 1 (replicate 8 (Fin 0)); Called 3 {| storage := 1; tensor_shape := [2; 4] |};
      Wrote 1 (replicate 8 (Fin 0)); Called 3 {| storage := 1; tensor_shape := [2; 4] |};
      Called 1 {| storage := 1; tensor_shape := [2; 4] |};
      Called 0 {| storage := 1; tensor_shape := [2; 4] |}]%nat.

(** ** [graph]

    A [networkx.DiGraph] as far as [graph] uses it: the nodes with their
    attributes, in insertion order, and the edges.  [add_node] on a node
    that exists updates its attributes. *)

(** The attributes that [graph] gives a node. *)
Record node_attributes : Type := { object : Module; type : string }.

(** The nodes in insertion order, and the edges. *)
Record DiGraph : Type := { _node : OrderedDict.t node_attributes; _edges : list (string * string) }.

(** [g.add_node(node_for_adding, **attr)] *)
Definition add_node (g : DiGraph) (node_for_adding : string) (attr : node_attributes)
  : DiGraph :=
  {| _node := OrderedDict.set (_node g) node_for_adding attr; _edges := _edges g |}.

(** The loop consumes the generator; an exception of the generator leaves
    the loop and the function. *)
Definition graph (model : Module) : result DiGraph :=
  let g := {| _node := []; _edges := [] |} in
  match (layers model).2 with
  | Some e => Raise e
  | None =>
      Ok (foldl (fun g yielded =>
                   add_node g yielded.1
                     {| object := yielded.2; type := class_name yielded.2 |})
                g (layers model).1)
  end.

(** ** [_preprocess_images]

    [Image.fromarray(np.uint8(image * 255))] and the first three steps of
    [torchvision_preprocess_input] (resize, conversion to a tensor,
    normalisation) are parameters; the last step puts a dimension of
    length 1 in front, and [np.concatenate] joins the results along it. *)

(** [img.unsqueeze(0)], the last step of [torchvision_preprocess_input]. *)
Definition unsqueeze0 (tensor : ndarray) : ndarray := Array (1 :: shape tensor) (data tensor).

(** [np.concatenate] along the first axis. *)
Definition np_concatenate (arrays : list ndarray) : result ndarray :=
  match arrays with
  | [] => Raise (ValueError "need at least one array to concatenate")
  | first :: _ =>
      match shape first with
      | [] => Raise (ValueError "zero-dimensional arrays cannot be concatenated")
      | _ :: trailing =>
          if forallb (fun a => bool_decide (shape a ≠ [] ∧ tail (shape a) = trailing)) arrays
          then Ok (Array (sum_list ((fun a => default 0%nat (head (shape a))) <$> arrays)
                            :: trailing)
                         (concat (data <$> arrays)))
          else Raise (ValueError "all the input array dimensions except for the concatenation axis must match exactly")
      end
  end.

(** An array is turned into an image first; [transform] stands for the
    resize, the conversion to a tensor and the normalisation. *)
Definition _preprocess_image (fromarray : ndarray → Image.t)
    (transform : nat → Image.t → result ndarray) (image : ndarray + Image.t)
    (image_size : nat) : result ndarray :=
  let image := match image with
               | inl array => fromarray array
               | inr image => image
               end in
  tensor ← transform image_size image;
  Ok (unsqueeze0 tensor).

(** The images are preprocessed one by one, then concatenated. *)
Definition _preprocess_images (fromarray : ndarray → Image.t)
    (transform : nat → Image.t → result ndarray) (images : list (ndarray + Image.t))
    (image_size : nat) : result ndarray :=
  images ← for_each (fun image => _preprocess_image fromarray transform image image_size)
                    images;
  np_concatenate images.

(** [for image in images] over an array: its rows along the first axis. *)
Fixpoint chunks {A : Type} (n size : nat) (l : list A) : list (list A) :=
  match n with
  | O => []
  | S n' => take size l :: chunks n' size (drop size l)
  end.

(** The rows of an array along its first axis. *)
Definition array_rows (a : ndarray) : list ndarray :=
  match shape a with
  | [] => []
  | n :: trailing => Array trailing <$> chunks n (foldr Nat.mul 1%nat trailing) (data a)
  end.

(** A transform that gives every image the same 3 x 1 x 1 tensor. *)
Definition flat_transform (image_size : nat) (image : Image.t) : result ndarray :=
  Ok (Array [3; 1; 1]%nat [Fin 0.1; Fin 0.2; Fin 0.3]).

(** The table with its score columns, before the filter on the model list. *)
Definition scored (model_meta : list meta_row) (data : list neural_row) (perf : list float)
  : list score_row :=
  (fun '(n, p) =>
     let b := default NaN (model_behavior model_meta !! model n) in
     ScoreRow n b p (np_mean [b])) <$> zip data perf.

(** How many rows [models.csv] has for a model. *)
Definition meta_count (model_meta : list meta_row) (name : string) : nat :=
  length (filter (fun meta => meta_model meta = name) model_meta).

(** The fixture row of a table row, given its identifier. *)
Definition fixture_of (r : row) (identifier : string) : fixture_fields :=
  let s := scores r in
  {| brain_score := global s; name := model (neural s);
     imagenet_top1 := performance s;
     fixture_v4 := v4 (neural s); fixture_it := it (neural s);
     behavior := i2n s;
     paper_link := default "" (link r);
     paper_identifier := identifier |}.

(** The BibTeX string of the row parses to one entry with a first author and
    a year, and [f] is the fixture row made from them. *)
Definition cited (parse : string → result (OrderedDict.t Entry)) (r : row)
    (f : fixture_fields) : Prop :=
  ∃ entry author others year,
    parse_bib parse (default "" (bibtex r)) = Ok entry
    ∧ OrderedDict.get (persons entry) "author" = Some (author :: others)
    ∧ OrderedDict.get (fields entry) "year" = Some year
    ∧ f = fixture_of r (str_join " " (last author) +:+ " et al., " +:+ year).

(** A saved table with [alexnet] before and after [resnet-18]. *)
Definition alexnet_twice : list neural_row :=
  [saved_alexnet; NeuralRow "resnet-18" (Fin 0.6) (Fin 0.01) (Fin 0.5) (Fin 0.02);
   saved_alexnet].

(** The row that [prepare_data] returns for [alexnet]. *)
Definition alexnet_row : row :=
  Row (ScoreRow saved_alexnet (Fin 0.37) (float_literal 57.67) (Fin 0.37)) (Fin 1)
      (Some "https://arxiv.org/abs/1404.5997") (Some "@article{krizhevsky2012, ...}").

(** ** [model_years] and the x axis of [plot_all]

    [_model_years] is a dictionary literal; the comprehension of
    [model_years] runs over its items in the order written. *)

Definition _model_years : list (string * float) :=
  [("alexnet", Fin 2012); ("vgg", Fin 2014); ("resnet", Fin 2015); ("inception_v", Fin 2015);
   ("mobilenet", Fin 2017); ("densenet", Fin 2016); ("squeezenet", Fin 2016);
   ("inception_resnet_v2", Fin 2016); ("nasnet", Fin 2017)].

(** [year[0]] when the list of matching years is not empty. *)
Definition year_of (name : string) : option float :=
  head ((fun prefix_year => prefix_year.2)
          <$> filter (fun prefix_year => String.prefix prefix_year.1 name = true) _model_years).

(** The loop runs over the keys of [model_performance]. *)
Definition model_years (model_meta : list meta_row) : gmap string float :=
  map_imap (fun name _ => year_of name) (model_performance model_meta).

(** The enumeration [Mode]. *)
Inductive Mode : Type :=
| YEAR_VS_SCORE
| PERFORMANCE_VS_SCORE
| DEPTH_VS_SCORE
| NONLINS_VS_SCORE
| FLOPS_VS_SCORE
| PARAMS_VS_SCORE.

(** The dictionaries of the other columns of [models.csv]. *)
Record model_columns : Type := {
  model_depth : gmap string float;
  model_nonlins : gmap string float;
  model_flops : gmap string float;
  model_params : gmap string float
}.

(** [[d[model] for model in models]] *)
Definition lookup_all (d : gmap string float) (models : list string) : result (list float) :=
  for_each (fun name =>
              match d !! name with
              | Some v => Ok v
              | None => Raise (KeyError name)
              end) models.

(** [x] is a list of values or, for the performance, a column of the table.
    A column is assigned row by row; a list is assigned by position and
    must have the length of the table. *)
Definition assign_x (data : list row) (x : list float + (row → float))
  : result (list (row * float)) :=
  match x with
  | inl values => set_column data values
  | inr column => Ok (zip data (column <$> data))
  end.

(** [plot_all] up to [data['x'] = x]: the table with its ['x'] column. *)
Definition plot_all_x (lib : library) (model_meta : list meta_row) (columns : model_columns)
    (models : list string) (neural_csv : option (list neural_row)) (mode : Mode)
  : result (list (row * float)) :=
  data ← (prepare_data lib model_meta models neural_csv).2;
  x ← match mode with
      | YEAR_VS_SCORE => inl <$> lookup_all (model_years model_meta) models
      | PERFORMANCE_VS_SCORE => Ok (inr (fun r => performance (scores r)))
      | DEPTH_VS_SCORE => inl <$> lookup_all (model_depth columns) models
      | NONLINS_VS_SCORE => inl <$> lookup_all (model_nonlins columns) models
      | FLOPS_VS_SCORE => inl <$> lookup_all (model_flops columns) models
      | PARAMS_VS_SCORE => inl <$> lookup_all (model_params columns) models
      end;
  assign_x data x.

(** The dictionary that a mode reads, if it reads one. *)
Definition mode_dict (model_meta : list meta_row) (columns : model_columns) (mode : Mode)
  : option (gmap string float) :=
  match mode with
  | YEAR_VS_SCORE => Some (model_years model_meta)
  | PERFORMANCE_VS_SCORE => None
  | DEPTH_VS_SCORE => Some (model_depth columns)
  | NONLINS_VS_SCORE => Some (model_nonlins columns)
  | FLOPS_VS_SCORE => Some (model_flops columns)
  | PARAMS_VS_SCORE => Some (model_params columns)
  end.

(** Depths for the two models of [example_meta]. *)
Definition example_columns : model_columns :=
  {| model_depth := {[ "alexnet" := Fin 8; "resnet-18" := Fin 18 ]};
     model_nonlins := ∅; model_flops := ∅; model_params := ∅ |}.

(** * Properties *)

(** ** Strings and results *)

Lemma append_assoc (a b c : string) : (a +:+ b) +:+ c = a +:+ (b +:+ c).
Proof.
  induction a as [|ch a IH]; [done |].
  change (String ch ((a +:+ b) +:+ c) = String ch (a +:+ (b +:+ c))). by rewrite IH.
Qed.

Lemma append_empty_r (a : string) : a +:+ "" = a.
Proof.
  induction a as [|ch a IH]; [done |].
  change (String ch (a +:+ "") = String ch a). by rewrite IH.
Qed.

Lemma str_join_snoc (path : list string) (part : string) :
  path ≠ [] → str_join sep (path ++ [part]) = str_join sep path +:+ sep +:+ part.
Proof.
  induction path as [|p path IH]; [done | intros _].
  destruct path as [|q path]; [done |].
  change (str_join sep ((p :: q :: path) ++ [part]))
    with (p +:+ sep +:+ str_join sep ((q :: path) ++ [part])).
  rewrite IH by done.
  change (str_join sep (p :: q :: path)) with (p +:+ sep +:+ str_join sep (q :: path)).
  by rewrite !append_assoc.
Qed.

Lemma str_split_nonempty (c : ascii) (s : string) : str_split c s ≠ [].
Proof. destruct s as [|ch s]; simpl; [done |]. by repeat case_match. Qed.

Lemma bind_Ok {A B : Type} (m : result A) (f : A → result B) (b : B) :
  m ≫= f = Ok b ↔ ∃ a, m = Ok a ∧ f a = Ok b.
Proof.
  destruct m as [a|e]; simpl; split.
  - intros H. by exists a.
  - by intros (a' & [= ->] & H).
  - done.
  - by intros (a' & ? & _).
Qed.

Lemma bind_Ok_l {A B : Type} (a : A) (f : A → result B) : Ok a ≫= f = f a.
Proof. reflexivity. Qed.

Lemma for_each_Ok {A B : Type} (f : A → result B) (l : list A) (bs : list B) :
  for_each f l = Ok bs ↔ Forall2 (fun a b => f a = Ok b) l bs.
Proof.
  revert bs. induction l as [|a l IH]; intros bs; simpl.
  - split; [intros [= <-]; constructor | by inversion 1].
  - split.
    + intros (b & Hb & (bs' & Hbs & [= <-])%bind_Ok)%bind_Ok.
      constructor; [done | by apply IH].
    + inversion 1 as [|? b ? bs' Hb Hbs]; subst.
      apply bind_Ok. exists b. split; [done |].
      apply bind_Ok. exists bs'. split; [by apply IH | done].
Qed.

(** ** The module tree *)

Lemma Module_ind (P : Module → Prop) :
  (∀ id cls subs, Forall (fun kv => P kv.2) subs → P (Mod id cls subs)) →
  ∀ m, P m.
Proof.
  intros step. fix IH 1. intros [id cls subs]. apply step.
  induction subs as [|[k v] subs IHsubs]; constructor; [apply IH | apply IHsubs].
Qed.

Lemma get_Some_elem {V : Type} (d : OrderedDict.t V) (k : string) (v : V) :
  OrderedDict.get d k = Some v → (k, v) ∈ d.
Proof.
  induction d as [|[k' v'] d IH]; simpl; [done |].
  destruct (String.eqb_spec k' k) as [->|_].
  - intros [= ->]. left.
  - intros H. right. by apply IH.
Qed.

(** A layer name that resolves names a path of the tree. *)
Lemma descend_at_path (parts : list string) :
  ∀ module found, descend module parts = Some found → at_path module parts found.
Proof.
  induction parts as [|part parts IH]; intros module found; simpl.
  - intros [= ->]. constructor.
  - destruct (OrderedDict.get (_modules module) part) as [child|] eqn:Hget; [| done].
    simpl. intros Hfound. econstructor; [by apply get_Some_elem | by apply IH].
Qed.

(** *** [walk_pytorch_module] *)

Lemma walk_parts_descend (layer_name : string) (parts : list string) :
  ∀ module found,
    walk_parts layer_name module parts = Ok found ↔ descend module parts = Some found.
Proof.
  induction parts as [|part parts IH]; intros module found; simpl.
  - split; congruence.
  - destruct (OrderedDict.get (_modules module) part) as [child|]; simpl; [apply IH | done].
Qed.

Lemma descend_None_first (parts : list string) :
  ∀ module, descend module parts = None →
    ∃ resolved part rest parent,
      parts = resolved ++ part :: rest
      ∧ descend module resolved = Some parent
      ∧ OrderedDict.get (_modules parent) part = None.
Proof.
  induction parts as [|part parts IH]; intros module; simpl; [done |].
  destruct (OrderedDict.get (_modules module) part) as [child|] eqn:Hget; simpl.
  - intros (resolved & part' & rest & parent & -> & Hres & Hnone)%IH.
    exists (part :: resolved), part', rest, parent. simpl. by rewrite Hget.
  - intros _. by exists [], part, parts, module.
Qed.

Lemma walk_parts_fails (layer_name : string) (resolved : list string) :
  ∀ module parent part rest,
    descend module resolved = Some parent →
    OrderedDict.get (_modules parent) part = None →
    walk_parts layer_name module (resolved ++ part :: rest)
    = Raise (AssertionError (no_submodule_msg layer_name part)).
Proof.
  induction resolved as [|p resolved IH]; intros module parent part rest; simpl.
  - intros [= ->] ->. done.
  - destruct (OrderedDict.get (_modules module) p) as [child|]; simpl; [apply IH | done].
Qed.

Lemma no_submodule_msg_mentions (layer_name part : string) :
  mentions (no_submodule_msg layer_name part) layer_name
  ∧ mentions (no_submodule_msg layer_name part) part.
Proof.
  split.
  - by exists "No submodule found for layer ", (", at part " +:+ part).
  - exists ("No submodule found for layer " +:+ layer_name +:+ ", at part "), "".
    unfold no_submodule_msg. by rewrite append_empty_r, !append_assoc.
Qed.

(** C5.  A layer name that does not resolve has a first part that is not a
    child of the module reached by the parts before it, and
    [walk_pytorch_module] raises the assertion error whose message names
    the layer name and that part; it returns no module. *)
Theorem walk_pytorch_module_unresolved (module : Module) (layer_name : string) :
  descend module (str_split SUBMODULE_SEPARATOR layer_name) = None →
  ∃ resolved part rest parent,
    str_split SUBMODULE_SEPARATOR layer_name = resolved ++ part :: rest
    ∧ descend module resolved = Some parent
    ∧ OrderedDict.get (_modules parent) part = None
    ∧ walk_pytorch_module module layer_name
      = Raise (AssertionError
                 ("No submodule found for layer " +:+ layer_name +:+ ", at part " +:+ part))
    ∧ mentions (no_submodule_msg layer_name part) layer_name
    ∧ mentions (no_submodule_msg layer_name part) part
    ∧ ∀ found, walk_pytorch_module module layer_name ≠ Ok found.
Proof.
  intros Hnone.
  destruct (descend_None_first _ _ Hnone) as (resolved & part & rest & parent & Hsplit & Hres & Hget).
  exists resolved, part, rest, parent.
  assert (walk_pytorch_module module layer_name
          = Raise (AssertionError (no_submodule_msg layer_name part))) as Hwalk.
  { unfold walk_pytorch_module. rewrite Hsplit. by eapply walk_parts_fails. }
  destruct (no_submodule_msg_mentions layer_name part) as [Hl Hp].
  repeat split; try done.
  intros found. rewrite Hwalk. done.
Qed.

Lemma walk_pytorch_module_unresolved_witness :
  descend small_net (str_split SUBMODULE_SEPARATOR "features.2.weight") = None
  ∧ ∃ resolved part rest parent,
      str_split SUBMODULE_SEPARATOR "features.2.weight" = resolved ++ part :: rest
      ∧ descend small_net resolved = Some parent
      ∧ OrderedDict.get (_modules parent) part = None
      ∧ walk_pytorch_module small_net "features.2.weight"
        = Raise (AssertionError
                   ("No submodule found for layer " +:+ "features.2.weight"
                    +:+ ", at part " +:+ part))
      ∧ mentions (no_submodule_msg "features.2.weight" part) "features.2.weight"
      ∧ mentions (no_submodule_msg "features.2.weight" part) part
      ∧ ∀ found, walk_pytorch_module small_net "features.2.weight" ≠ Ok found.
Proof.
  split; [reflexivity |].
  apply (walk_pytorch_module_unresolved small_net "features.2.weight"). reflexivity.
Defined.

(** *** [_layers] *)

Lemma _layers_unfold (id : nat) (cls : string) (subs : OrderedDict.t Module)
    (name_prefix : option string) :
  _layers (Mod id cls subs) name_prefix =
  match subs with
  | [] => match name_prefix with
          | None => gen_raise none_plus_str
          | Some p => gen_yield (p +:+ sep +:+ cls, Mod id cls subs) gen_return
          end
  | _ => layers_of_items name_prefix subs
  end.
Proof.
  destruct subs as [|[n sub] subs]; [by destruct name_prefix |].
  cbn [_layers layers_of_items]. f_equal.
  induction subs as [|[n' sub'] subs IH]; [done |].
  cbn [layers_of_items]. by rewrite IH.
Qed.

Lemma leaf_paths_unfold (id : nat) (cls : string) (subs : OrderedDict.t Module)
    (path : list string) :
  leaf_paths (Mod id cls subs) path =
  match subs with
  | [] => [(path, Mod id cls subs)]
  | _ => leaf_paths_of_items path subs
  end.
Proof.
  destruct subs as [|[n sub] subs]; [done |].
  cbn [leaf_paths leaf_paths_of_items]. f_equal.
  induction subs as [|[n' sub'] subs IH]; [done |].
  cbn [leaf_paths_of_items]. by rewrite IH.
Qed.

Lemma _layers_prefixed (module : Module) :
  ∀ path, path ≠ [] →
    _layers module (Some (str_join sep path)) = (named (leaf_paths module path), None).
Proof.
  induction module as [id cls subs IH] using Module_ind; intros path Hpath.
  rewrite _layers_unfold, leaf_paths_unfold.
  destruct subs as [|kv subs]; [done |].
  generalize dependent (kv :: subs). clear kv subs.
  induction l as [|[n sub] l IHl]; intros HForall; [done |].
  inversion HForall as [|? ? Hsub Hrest]; subst. simpl in Hsub.
  cbn [layers_of_items leaf_paths_of_items child_prefix].
  rewrite <- str_join_snoc by done.
  rewrite Hsub by (by destruct path).
  rewrite (IHl Hrest). unfold yield_from, named. simpl. by rewrite fmap_app.
Qed.

Lemma layers_of_root_items (subs : OrderedDict.t Module) :
  layers_of_items None subs = (named (leaf_paths_of_items [] subs), None).
Proof.
  induction subs as [|[n sub] subs IH]; [done |].
  cbn [layers_of_items leaf_paths_of_items child_prefix app].
  pose proof (_layers_prefixed sub [n]) as Hsub. cbn [str_join] in Hsub.
  rewrite Hsub by done.
  rewrite IH. unfold yield_from, named. simpl. by rewrite fmap_app.
Qed.

Lemma layers_with_submodules (model : Module) :
  _modules model ≠ [] → layers model = (named (leaf_paths model []), None).
Proof.
  destruct model as [id cls subs]. intros Hsubs. cbn [_modules] in Hsubs. unfold layers.
  rewrite _layers_unfold, leaf_paths_unfold.
  destruct subs as [|kv subs]; [done |]. apply layers_of_root_items.
Qed.

Lemma leaf_paths_at_path (module : Module) :
  ∀ path full leaf,
    (full, leaf) ∈ leaf_paths module path
    ↔ ∃ rel, full = path ++ rel ∧ at_path module rel leaf ∧ _modules leaf = [].
Proof.
  induction module as [id cls subs IH] using Module_ind; intros path full leaf.
  rewrite leaf_paths_unfold.
  destruct subs as [|kv subs].
  { rewrite list_elem_of_singleton. split.
    - intros [= -> ->]. exists []. rewrite app_nil_r. repeat split. constructor.
    - intros (rel & -> & Hat & Hleaf). inversion Hat; subst.
      + by rewrite app_nil_r.
      + simpl in *. by apply not_elem_of_nil in H. }
  assert (∀ l, Forall (fun kv => ∀ path full leaf,
                 (full, leaf) ∈ leaf_paths kv.2 path
                 ↔ ∃ rel, full = path ++ rel ∧ at_path kv.2 rel leaf ∧ _modules leaf = []) l →
            ((full, leaf) ∈ leaf_paths_of_items path l
             ↔ ∃ n sub rel, (n, sub) ∈ l ∧ full = path ++ n :: rel
                            ∧ at_path sub rel leaf ∧ _modules leaf = [])) as Hitems.
  { clear. induction l as [|[n sub] l IHl]; intros HForall.
    - simpl. split; [by intros ?%not_elem_of_nil |].
      by intros (? & ? & ? & ?%not_elem_of_nil & _).
    - inversion HForall as [|? ? Hsub Hrest]; subst. simpl in Hsub.
      cbn [leaf_paths_of_items]. rewrite elem_of_app, Hsub, (IHl Hrest). split.
      + intros [(rel & -> & Hat & Hleaf) | (n' & sub' & rel & Hin & -> & Hat & Hleaf)].
        * exists n, sub, rel. rewrite <- app_assoc. repeat split; try done. left.
        * exists n', sub', rel. repeat split; try done. by right.
      + intros (n' & sub' & rel & Hin & -> & Hat & Hleaf).
        apply elem_of_cons in Hin as [[= -> ->] | Hin].
        * left. exists rel. by rewrite <- app_assoc.
        * right. by exists n', sub', rel. }
  rewrite (Hitems _ IH). split.
  - intros (n & sub & rel & Hin & -> & Hat & Hleaf).
    exists (n :: rel). repeat split; try done. by econstructor.
  - intros (rel & -> & Hat & Hleaf). inversion Hat; subst; [done |].
    by eexists _, _, _.
Qed.

Example layers_small_net :
  layers small_net
  = ([("features.0.Conv2d", Mod 2 "Conv2d" []); ("features.1.ReLU", Mod 3 "ReLU" []);
      ("classifier.0.Linear", Mod 5 "Linear" [])], None).
Proof. reflexivity. Qed.

(** C6.  When the root has a submodule, [layers()] ends without an
    exception and yields, in depth-first order, the leaves of the submodule
    tree and nothing else: every module without children that a path from
    the root reaches, under the name made of that path joined by dots, a dot
    and the class name of the leaf. *)
Theorem layers_yields_leaves (model : Module) :
  _modules model ≠ [] →
  layers model
  = ((fun leaf => (str_join sep leaf.1 +:+ sep +:+ class_name leaf.2, leaf.2))
       <$> leaf_paths model [], None)
  ∧ (∀ path leaf,
       (path, leaf) ∈ leaf_paths model [] ↔ at_path model path leaf ∧ _modules leaf = [])
  ∧ Forall (fun yielded => _modules yielded.2 = []) (layers model).1.
Proof.
  intros Hsubs.
  assert (∀ path leaf,
            (path, leaf) ∈ leaf_paths model [] ↔ at_path model path leaf ∧ _modules leaf = [])
    as Hleaves.
  { intros path leaf. rewrite leaf_paths_at_path. split.
    - by intros (rel & -> & Hat & Hleaf).
    - intros [Hat Hleaf]. by exists path. }
  split; [by apply layers_with_submodules |]. split; [done |].
  rewrite (layers_with_submodules model Hsubs). simpl.
  apply Forall_forall. intros [nm m] ([path leaf] & [= -> ->] & Hin)%list_elem_of_fmap.
  by apply Hleaves in Hin as [_ ?].
Qed.

Lemma layers_yields_leaves_witness :
  _modules small_net ≠ []
  ∧ layers small_net
    = ((fun leaf => (str_join sep leaf.1 +:+ sep +:+ class_name leaf.2, leaf.2))
         <$> leaf_paths small_net [], None)
  ∧ (∀ path leaf,
       (path, leaf) ∈ leaf_paths small_net []
       ↔ at_path small_net path leaf ∧ _modules leaf = [])
  ∧ Forall (fun yielded => _modules yielded.2 = []) (layers small_net).1.
Proof.
  split; [discriminate |]. apply (layers_yields_leaves small_net). discriminate.
Defined.

(** C10.  On a root module without submodules [layers()] yields nothing and
    raises the [TypeError] of [None + '.']; the root is not yielded as a
    leaf.  The traversal ends without an exception exactly when the root
    has a submodule. *)
Theorem layers_of_childless_root (model : Module) :
  (_modules model = [] →
   layers model
   = ([], Some (TypeError "unsupported operand type(s) for +: 'NoneType' and 'str'")))
  ∧ ((layers model).2 = None ↔ _modules model ≠ []).
Proof.
  split.
  - destruct model as [id cls subs]. cbn [_modules]. intros ->. reflexivity.
  - split.
    + intros Hdone Hsubs. destruct model as [id cls subs]. cbn [_modules] in Hsubs.
      subst subs. discriminate Hdone.
    + intros Hsubs. by rewrite (layers_with_submodules model Hsubs).
Qed.

Lemma layers_of_childless_root_witness :
  _modules (Mod 0 "Linear" []) = []
  ∧ layers (Mod 0 "Linear" [])
    = ([], Some (TypeError "unsupported operand type(s) for +: 'NoneType' and 'str'")).
Proof.
  split; [reflexivity |].
  apply (layers_of_childless_root (Mod 0 "Linear" [])). reflexivity.
Defined.

(** ** [_get_activations] *)

Section ordered_dict.
  Context {V : Type}.
  Implicit Types (d : OrderedDict.t V) (k : string) (v : V).

Lemma keys_set d k v k' :
  k' ∈ OrderedDict.keys (OrderedDict.set d k v) ↔ k' = k ∨ k' ∈ OrderedDict.keys d.
Proof.
  unfold OrderedDict.keys.
  induction d as [|[k0 v0] d IH]; simpl.
  - rewrite list_elem_of_singleton. split; [by left | intros [?|?%not_elem_of_nil]; done].
  - destruct (String.eqb_spec k0 k) as [->|Hne]; simpl.
    + rewrite !elem_of_cons. naive_solver.
    + rewrite !elem_of_cons, IH. tauto.
Qed.

Lemma NoDup_keys_set d k v :
  NoDup (OrderedDict.keys d) → NoDup (OrderedDict.keys (OrderedDict.set d k v)).
Proof.
  induction d as [|[k0 v0] d IH]; simpl.
  - intros _. apply NoDup_singleton.
  - intros [Hnotin Hd]%NoDup_cons.
    destruct (String.eqb_spec k0 k) as [->|Hne]; simpl; apply NoDup_cons.
    + done.
    + split; [| by apply IH].
      intros [?|?]%keys_set; [congruence | done].
Qed.

Lemma elem_of_set d k v k' v' :
  (k', v') ∈ OrderedDict.set d k v → (k' = k ∧ v' = v) ∨ (k', v') ∈ d.
Proof.
  induction d as [|[k0 v0] d IH]; simpl.
  - intros [= -> ->]%list_elem_of_singleton. by left.
  - destruct (String.eqb_spec k0 k) as [->|Hne].
    + intros [[= -> ->] | Hin]%elem_of_cons; [by left | right; by right].
    + intros [[= -> ->] | Hin]%elem_of_cons; [right; left |].
      destruct (IH Hin) as [?|?]; [by left | right; by right].
Qed.
End ordered_dict.

Section ordered_dict_get.
  Context {V : Type}.

Lemma get_set (d : OrderedDict.t V) (k k' : string) (v : V) :
  OrderedDict.get (OrderedDict.set d k v) k'
  = if String.eqb k k' then Some v else OrderedDict.get d k'.
Proof.
  induction d as [|[k0 v0] d IH]; cbn [OrderedDict.set OrderedDict.get]; [done |].
  destruct (String.eqb_spec k0 k) as [-> | Hne]; cbn [OrderedDict.get].
  - by destruct (String.eqb k k').
  - rewrite IH. destruct (String.eqb_spec k0 k') as [-> | _]; [| done].
    by rewrite (proj2 (String.eqb_neq k k')).
Qed.

Lemma get_elem_NoDup (d : OrderedDict.t V) (k : string) (v : V) :
  NoDup d.*1 → (k, v) ∈ d → OrderedDict.get d k = Some v.
Proof.
  induction d as [|[k' v'] d IH]; [by intros _ ?%not_elem_of_nil |].
  cbn [fmap list_fmap fst]. intros [Hnotin Hd]%NoDup_cons [[= -> ->] | Hin]%elem_of_cons.
  - cbn [OrderedDict.get]. by rewrite String.eqb_refl.
  - cbn [OrderedDict.get]. destruct (String.eqb_spec k' k) as [-> | _]; [| by apply IH].
    exfalso. apply Hnotin. apply list_elem_of_fmap. by exists (k, v).
Qed.

Lemma get_fmap {W : Type} (f : V → W) (d : OrderedDict.t V) (k : string) :
  OrderedDict.get (prod_map id f <$> d) k = f <$> OrderedDict.get d k.
Proof.
  induction d as [|[k' v'] d IH]; [done |].
  cbn [fmap list_fmap prod_map fst snd id OrderedDict.get]. rewrite IH.
  by destruct (String.eqb k' k).
Qed.

End ordered_dict_get.

Section store_all.
  Context {V : Type}.
  Implicit Types (results : OrderedDict.t V) (call : nat * V).



Lemma store_all_get (hooks : list hook) call (k : string) :
  ∀ results,
    OrderedDict.get (store_all hooks results call) k
    = if stores hooks k call then Some call.2 else OrderedDict.get results k.
Proof.
  unfold store_all, stores.
  induction hooks as [|h hooks IH]; intros results; [done |].
  cbn [foldl existsb]. rewrite IH.
  destruct (existsb (fun h => (h.1 =? call.1)%nat && String.eqb h.2 k) hooks);
    [by rewrite orb_true_r |].
  rewrite orb_false_r. destruct (h.1 =? call.1)%nat; [| done].
  by rewrite get_set.
Qed.



Lemma stored_get (hooks : list hook) (k : string) (captured : list (nat * V)) :
  ∀ results,
    OrderedDict.get (foldl (store_all hooks) results captured) k
    = match list.last (filter (fun call => stores hooks k call = true) captured) with
      | Some call => Some call.2
      | None => OrderedDict.get results k
      end.
Proof.
  induction captured as [|call captured IH] using rev_ind; intros results; [done |].
  rewrite foldl_snoc, store_all_get, filter_app, filter_cons, filter_nil.
  destruct (stores hooks k call) eqn:Hstores.
  - rewrite decide_True by done. by rewrite last_snoc.
  - rewrite decide_False by done. by rewrite app_nil_r, IH.
Qed.

Lemma stores_spec (hooks : list hook) (k : string) call :
  stores hooks k call = true ↔ fires hooks call k.
Proof.
  unfold stores, fires. rewrite existsb_exists. split.
  - intros (h & Hin%list_elem_of_In & [?%Nat.eqb_eq ?%String.eqb_eq]%andb_true_iff).
    by exists h.
  - intros (h & Hin & H1 & H2). exists h. split; [by apply list_elem_of_In |].
    apply andb_true_iff. split; [by apply Nat.eqb_eq | by apply String.eqb_eq].
Qed.
End store_all.

Section last_filter.
  Context {A : Type} (P : A → Prop) `{!∀ x, Decision (P x)}.

Lemma last_filter_Some (l : list A) (x : A) :
  list.last (filter P l) = Some x
  ↔ ∃ l1 l2, l = l1 ++ x :: l2 ∧ P x ∧ Forall (fun y => ¬ P y) l2.
Proof.
  split.
  - induction l as [|y l IH] using rev_ind; [done |].
    rewrite filter_app, filter_cons, filter_nil.
    destruct (decide (P y)) as [Hy | Hy].
    + rewrite last_snoc. intros [= ->]. exists l, []. by rewrite Forall_nil.
    + rewrite app_nil_r. intros (l1 & l2 & -> & Hx & Hl2)%IH.
      exists l1, (l2 ++ [y]). rewrite <- app_assoc. split; [done |]. split; [done |].
      apply Forall_app. split; [done | by constructor].
  - intros (l1 & l2 & -> & Hx & Hl2).
    rewrite filter_app, filter_cons, decide_True by done.
    assert (filter P l2 = []) as ->.
    { induction Hl2 as [|y l2 Hy _ IH]; [done |]. by rewrite filter_cons, decide_False. }
    by rewrite last_snoc.
Qed.
End last_filter.

(** The run of the hooks over the steps of a forward pass: the memory
    changes with the writes, the mapping with the calls. *)
Lemma run_steps (dev : device) (hooks : list hook) (steps : list step) :
  ∀ m results,
    foldl (run_step dev hooks) (m, results) steps
    = (memory_after m steps, foldl (store_all hooks) results (captures dev m steps)).
Proof.
  unfold memory_after.
  induction steps as [|[written values | module output] steps IH]; intros m results;
    [done | |]; cbn [foldl run_step captures fst snd]; apply IH.
Qed.

Lemma memory_after_app (m : memory) (before after : list step) :
  memory_after m (before ++ after) = memory_after (memory_after m before) after.
Proof. unfold memory_after. apply foldl_app. Qed.

Lemma captures_app (dev : device) (before after : list step) :
  ∀ m,
    captures dev m (before ++ after)
    = captures dev m before ++ captures dev (memory_after m before) after.
Proof.
  induction before as [|[written values | module output] before IH]; intros m; [done | |];
    cbn [app captures]; rewrite IH; done.
Qed.

Lemma captures_calls (dev : device) (steps : list step) (id : nat) :
  ∀ m, (∃ v, (id, v) ∈ captures dev m steps) ↔ calls steps id.
Proof.
  unfold calls.
  induction steps as [|[written values | module output] steps IH]; intros m; cbn [captures].
  - split; [by intros (v & ?%not_elem_of_nil) | by intros (output & ?%not_elem_of_nil)].
  - rewrite IH. by setoid_rewrite elem_of_cons; split; intros (output & H); exists output;
      [right | destruct H as [[=] | H]].
  - setoid_rewrite elem_of_cons. split.
    + intros (v & [[= -> ->] | Hin]); [exists output; by left |].
      destruct (proj1 (IH m) (ex_intro _ v Hin)) as [output' Hout]. exists output'. by right.
    + intros (output' & [[= -> ->] | Hin]); [eexists; by left |].
      destruct (proj2 (IH m) (ex_intro _ output' Hin)) as [v Hv]. exists v. by right.
Qed.

Lemma captures_split (dev : device) (steps : list step) :
  ∀ m l1 id v l2,
    captures dev m steps = l1 ++ (id, v) :: l2 →
    ∃ before output after,
      steps = before ++ Called id output :: after
      ∧ v = cpu_data_numpy dev (memory_after m before) output
      ∧ l2 = captures dev (memory_after m before) after.
Proof.
  induction steps as [|[written values | module output] steps IH]; intros m l1 id v l2;
    cbn [captures].
  - by destruct l1.
  - intros (before & output & after & -> & -> & ->)%IH.
    by exists (Wrote written values :: before), output, after.
  - destruct l1 as [|c l1]; cbn [app].
    + intros [= -> <- <-]. by exists [], output, steps.
    + intros [= _ (before & output' & after & -> & -> & ->)%IH].
      by exists (Called module output :: before), output', after.
Qed.


(** What the hooks have stored under [k] when all hooks that store under
    [k] are on the module [id]: the array made at the last call of [id]. *)
Lemma captured_get (dev : device) (hooks : list hook) (m : memory) (steps : list step)
    (k : string) (id : nat) (v : numpy_array) :
  (∀ call : nat * numpy_array, fires hooks call k ↔ call.1 = id) →
  OrderedDict.get (foldl (store_all hooks) [] (captures dev m steps)) k = Some v
  ↔ ∃ before output after,
      steps = before ++ Called id output :: after
      ∧ (∀ output', Called id output' ∉ after)
      ∧ v = cpu_data_numpy dev (memory_after m before) output.
Proof.
  intros Hfires. rewrite stored_get. cbn [OrderedDict.get]. split.
  - destruct (list.last _) as [[id' v']|] eqn:Hlast; [| done]. intros [= ->].
    apply last_filter_Some in Hlast as (l1 & l2 & Hsplit & Hid%stores_spec%Hfires & Hl2).
    cbn [fst] in Hid. subst id'.
    apply captures_split in Hsplit as (before & output & after & -> & -> & ->).
    exists before, output, after. split; [done |]. split; [| done].
    intros output' Hin.
    destruct (proj2 (captures_calls dev after id (memory_after m before))
                (ex_intro _ output' Hin)) as [v' Hv'].
    apply (proj1 (Forall_forall _ _) Hl2 _ Hv'). by apply stores_spec, Hfires.
  - intros (before & output & after & -> & Hlater & ->).
    rewrite captures_app. cbn [captures].
    rewrite (proj2 (last_filter_Some
                      (fun call : nat * numpy_array => stores hooks k call = true) _
                      (id, cpu_data_numpy dev (memory_after m before) output))); [done |].
    eexists _, _. split; [done |]. split; [by apply stores_spec, Hfires |].
    apply Forall_forall. intros [id' v'] Hin Hid%stores_spec%Hfires. cbn [fst] in Hid.
    subst id'.
    destruct (proj1 (captures_calls dev after id (memory_after m before))
                (ex_intro _ v' Hin)) as [output' Hout].
    by apply (Hlater output').
Qed.

Lemma torch_stack_Ok (images : list ndarray) (first : ndarray) :
  head images = Some first →
  Forall (fun image => shape image = shape first) images →
  torch_stack images = Ok (Array (length images :: shape first) (concat (data <$> images))).
Proof.
  destruct images as [|image images]; [done |]. intros [= ->] Hshape.
  unfold torch_stack.
  assert (forallb (fun other => bool_decide (shape other = shape first)) (first :: images) = true)
    as ->; [| done].
  apply forallb_forall. intros other Hin%list_elem_of_In.
  apply bool_decide_eq_true. by eapply Forall_forall in Hshape.
Qed.

Lemma hooks_of_layers (model : Module) (layer_names : list string) :
  Forall (fun layer_name =>
            is_Some (descend model (str_split SUBMODULE_SEPARATOR layer_name))) layer_names →
  ∃ hooks,
    for_each (fun layer_name =>
                layer ← walk_pytorch_module model layer_name;
                Ok (ident layer, layer_name)) layer_names = Ok hooks
    ∧ ∀ h, h ∈ hooks ↔
           ∃ layer, h.2 ∈ layer_names ∧ walk_pytorch_module model h.2 = Ok layer
                    ∧ h.1 = ident layer.
Proof.
  induction layer_names as [|layer_name layer_names IH].
  - intros _. exists []. split; [done |]. intros h. split.
    + by intros ?%not_elem_of_nil.
    + by intros (? & ?%not_elem_of_nil & _).
  - intros [[layer Hlayer] Hrest]%Forall_cons.
    destruct (IH Hrest) as (hooks & Hhooks & Hspec).
    apply walk_parts_descend with (layer_name := layer_name) in Hlayer.
    fold (walk_pytorch_module model layer_name) in Hlayer.
    exists ((ident layer, layer_name) :: hooks). split.
    + cbn [for_each]. rewrite Hlayer. simpl. by rewrite Hhooks.
    + intros [id nm]. rewrite elem_of_cons, Hspec. simpl. split.
      * intros [[= -> ->] | (layer' & ? & ? & ?)].
        -- exists layer. split; [left | done].
        -- exists layer'. split; [by right | done].
      * intros (layer' & [-> | ?]%elem_of_cons & Hwalk & ->).
        -- left. rewrite Hlayer in Hwalk. by injection Hwalk as ->.
        -- right. by exists layer'.
Qed.

(** The run of [_get_activations] when the batch stacks, the layer names
    resolve and the forward pass completes. *)
Lemma _get_activations_run (dev : device) (forward : forward_pass) (model : Module)
    (images : list ndarray) (batch : ndarray) (layer_names : list string)
    (steps : list step) :
  torch_stack images = Ok batch →
  Forall (fun layer_name =>
            is_Some (descend model (str_split SUBMODULE_SEPARATOR layer_name))) layer_names →
  forward model batch = Ok steps →
  ∃ hooks,
    (∀ h, h ∈ hooks ↔
          ∃ layer, h.2 ∈ layer_names ∧ walk_pytorch_module model h.2 = Ok layer
                   ∧ h.1 = ident layer)
    ∧ _get_activations dev forward model images layer_names
      = Ok (prod_map id (array_values (memory_after (initial_memory batch) steps))
              <$> foldl (store_all hooks) [] (captures dev (initial_memory batch) steps)).
Proof.
  intros Hstack Hresolve Hforward.
  destruct (hooks_of_layers model layer_names Hresolve) as (hooks & Hhooks & Hspec).
  exists hooks. split; [done |].
  unfold _get_activations, hook in *.
  by rewrite Hstack, bind_Ok_l, Hhooks, bind_Ok_l, Hforward, bind_Ok_l, run_steps.
Qed.

(** The hooks that store under a requested layer name are those on the
    module that the name resolves to. *)
Lemma fires_layer {V : Type} (model : Module) (layer_names : list string) (hooks : list hook)
    (layer_name : string) (layer : Module) :
  (∀ h, h ∈ hooks ↔
        ∃ layer, h.2 ∈ layer_names ∧ walk_pytorch_module model h.2 = Ok layer
                 ∧ h.1 = ident layer) →
  layer_name ∈ layer_names →
  walk_pytorch_module model layer_name = Ok layer →
  ∀ call : nat * V, fires hooks call layer_name ↔ call.1 = ident layer.
Proof.
  intros Hspec Hin Hwalk call. unfold fires. split.
  - intros (h & (layer' & _ & Hwalk' & Hid)%Hspec & <- & <-).
    rewrite Hwalk in Hwalk'. by injection Hwalk' as <-.
  - intros Hcall. exists (ident layer, layer_name). split; [| done].
    apply Hspec. by exists layer.
Qed.


Example _get_activations_small_net :
  _get_activations cpu small_forward small_net two_images ["classifier.0"; "features.0"]
  = Ok [("features.0", Array [2; 4]%nat (replicate 8 (Fin 0)));
        ("classifier.0", Array [2; 2]%nat (replicate 4 (Fin 3)))].
Proof. reflexivity. Qed.



(** ** [_load_image] *)

Lemma overlay_self {A : Type} (put : A → A → A) (l : list A) :
  Forall (fun a => put a a = a) l → Image.overlay put l l = l.
Proof. induction 1 as [|a l Ha _ IH]; simpl; [done | by rewrite Ha, IH]. Qed.

Lemma paste_self (convert : string → Image.t → Image.t) (image : Image.t) :
  Image.paste convert image image = image.
Proof.
  destruct image as [mode size pixels]. unfold Image.paste. cbn [Image.mode Image.size].
  rewrite String.eqb_refl. cbn [Image.pixels]. f_equal.
  apply overlay_self, Forall_forall. intros row _.
  apply overlay_self, Forall_forall. done.
Qed.

(** A non-grayscale image comes back as its copy, with the same content. *)
Lemma _load_image_not_grayscale (image_open : string → result Image.t)
    (convert : string → Image.t → Image.t) (image_filepath : string) (image : Image.t) :
  image_open image_filepath = Ok image →
  str_upper (Image.mode image) ≠ "L" →
  _load_image image_open convert image_filepath = Ok image.
Proof.
  intros Hopen Hmode. unfold _load_image. rewrite Hopen, bind_Ok_l.
  apply String.eqb_neq in Hmode. rewrite Hmode. by destruct image.
Qed.

(** A grayscale image comes back as the blank RGB image of its size: the
    paste copies the new image onto itself. *)
Lemma _load_image_grayscale (image_open : string → result Image.t)
    (convert : string → Image.t → Image.t) (image_filepath : string) (image : Image.t) :
  image_open image_filepath = Ok image →
  str_upper (Image.mode image) = "L" →
  _load_image image_open convert image_filepath
  = Ok (Image.Make "RGB" (Image.size image)
          (replicate (Image.size image).2 (replicate (Image.size image).1 [0; 0; 0]%Z))).
Proof.
  intros Hopen Hmode. unfold _load_image. rewrite Hopen, bind_Ok_l.
  apply String.eqb_eq in Hmode. rewrite Hmode. cbn [negb].
  change (Image.new "RGB" (Image.size image))
    with (Ok (Image.Make "RGB" (Image.size image)
                (replicate (Image.size image).2
                   (replicate (Image.size image).1 [0; 0; 0]%Z)))).
  by rewrite bind_Ok_l, paste_self.
Qed.

(** C2, where the code departs from it.  For the one-pixel white grayscale
    image [_load_image] returns the black RGB pixel, not the white one that
    the conversion to RGB of the image is. *)
Theorem _load_image_grayscale_content_lost (convert : string → Image.t → Image.t) :
  _load_image (fun _ => Ok white_pixel) convert "white.png"
  = Ok (Image.Make "RGB" (1, 1)%nat [[[0; 0; 0]%Z]])
  ∧ Image.gray_to_rgb white_pixel = Image.Make "RGB" (1, 1)%nat [[[255; 255; 255]%Z]]
  ∧ _load_image (fun _ => Ok white_pixel) convert "white.png"
    ≠ Ok (Image.gray_to_rgb white_pixel).
Proof.
  assert (_load_image (fun _ => Ok white_pixel) convert "white.png"
          = Ok (Image.Make "RGB" (1, 1)%nat [[[0; 0; 0]%Z]])) as Hload.
  { by rewrite (_load_image_grayscale _ convert "white.png" white_pixel). }
  split; [done |]. split; [done |]. rewrite Hload. discriminate.
Qed.

(** ** The ['convex'] trend fit *)








(** ** Ranks *)

Lemma rank_descending_lookup (series : list float) (i : nat) (q : Q) :
  series !! i = Some (Fin q) →
  rank_descending series !! i
  = Some (Fin (Qred (inject_Z (Z.of_nat (2 * above (Fin q) series + tied (Fin q) series + 1)) / 2))).
Proof. intros Hi. unfold rank_descending. by rewrite list_lookup_fmap, Hi. Qed.

Lemma float_eqb_refl (q : Q) : float_eqb (Fin q) (Fin q) = true.
Proof. simpl. apply Qeq_bool_iff. reflexivity. Qed.

Lemma float_gt_trans (y : float) (a b : Q) :
  float_gt y (Fin a) = true → float_gt (Fin a) (Fin b) = true → float_gt y (Fin b) = true.
Proof.
  destruct y as [|p]; simpl; [done |].
  rewrite !negb_true_iff, <- !not_true_iff_false, !Qle_bool_iff.
  intros Hpa Hab Hpb. apply Qnot_le_lt in Hpa, Hab.
  apply (Qlt_irrefl p). eapply Qle_lt_trans; [exact Hpb |]. by eapply Qlt_trans.
Qed.

Lemma float_eqb_gt (y : float) (a b : Q) :
  float_eqb y (Fin a) = true → float_gt (Fin a) (Fin b) = true → float_gt y (Fin b) = true.
Proof.
  destruct y as [|p]; simpl; [done |].
  rewrite !negb_true_iff, <- !not_true_iff_false, !Qle_bool_iff, Qeq_bool_iff.
  intros Hpa Hab Hpb. apply Hab. by rewrite <- Hpa.
Qed.

Lemma float_gt_not_eqb (y x : float) :
  float_gt y x = true → float_eqb y x = true → False.
Proof.
  destruct y as [|p], x as [|q]; simpl; try done.
  rewrite negb_true_iff, <- not_true_iff_false, Qle_bool_iff, Qeq_bool_iff.
  intros Hgt Heq. apply Hgt. rewrite Heq. apply Qle_refl.
Qed.

Lemma above_tied_below (a b : Q) (series : list float) :
  float_gt (Fin a) (Fin b) = true →
  above (Fin a) series + tied (Fin a) series ≤ above (Fin b) series.
Proof.
  intros Hab. unfold above, tied.
  induction series as [|y series IH]; [done |].
  rewrite !filter_cons.
  pose proof (float_gt_trans y a b) as Htrans.
  pose proof (float_eqb_gt y a b) as Heq.
  pose proof (float_gt_not_eqb y (Fin a)) as Hdisjoint.
  repeat case_decide; simpl; try lia; naive_solver.
Qed.

Lemma tied_positive (q : Q) (series : list float) :
  Fin q ∈ series → 1 ≤ tied (Fin q) series.
Proof.
  unfold tied. induction series as [|y series IH]; [by intros ?%not_elem_of_nil |].
  rewrite filter_cons. intros [<- | Hin]%elem_of_cons.
  - rewrite decide_True by apply float_eqb_refl. simpl. lia.
  - specialize (IH Hin). case_decide; simpl; lia.
Qed.

Lemma filter_none {A : Type} (P : A → Prop) `{∀ a, Decision (P a)} (l : list A) :
  Forall (fun a => ¬ P a) l → filter P l = [].
Proof.
  induction 1 as [|a l Ha _ IH]; [done |]. by rewrite filter_cons, decide_False, IH.
Qed.

Lemma half_rank_lt (n m : nat) :
  (n < m)%nat →
  (Qred (inject_Z (Z.of_nat n) / 2) < Qred (inject_Z (Z.of_nat m) / 2))%Q.
Proof.
  intros Hnm. rewrite !Qred_correct.
  apply Qmult_lt_compat_r; [done |]. rewrite <- Zlt_Qlt. lia.
Qed.

Lemma float_gt_proper (y : float) (a b : Q) :
  float_eqb (Fin a) (Fin b) = true → float_gt y (Fin a) = float_gt y (Fin b).
Proof.
  destruct y as [|p]; [done |]. simpl. intros Hab%Qeq_bool_iff. f_equal.
  apply eq_true_iff_eq. by rewrite !Qle_bool_iff, Hab.
Qed.

Lemma float_eqb_proper (y : float) (a b : Q) :
  float_eqb (Fin a) (Fin b) = true → float_eqb y (Fin a) = float_eqb y (Fin b).
Proof.
  destruct y as [|p]; [done |]. simpl. intros Hab%Qeq_bool_iff.
  apply eq_true_iff_eq. by rewrite !Qeq_bool_iff, Hab.
Qed.

Lemma above_tied_proper (a b : Q) (series : list float) :
  float_eqb (Fin a) (Fin b) = true →
  above (Fin a) series = above (Fin b) series ∧ tied (Fin a) series = tied (Fin b) series.
Proof.
  intros Hab. unfold above, tied. split; f_equal; apply list_filter_iff; intros y.
  - by rewrite (float_gt_proper y a b Hab).
  - by rewrite (float_eqb_proper y a b Hab).
Qed.

(** C7 as the specification has it fails on ties: two rows that share the
    highest score both get rank 1.5. *)
Lemma rank_of_tied_highest :
  rank_descending [Fin 0.9; Fin 0.9; Fin 0.5] = [Fin (3 # 2); Fin (3 # 2); Fin 3]
  ∧ rank_descending [Fin 0.9; Fin 0.9; Fin 0.5] !! 0%nat ≠ Some (Fin 1).
Proof. split; [reflexivity | discriminate]. Qed.

(** ** [parse_bib] *)

(** C8.  For a string that the parser turns into [entries], [parse_bib]
    raises the assertion error exactly when the number of entries is not
    one, and returns the entry when there is exactly one. *)
Theorem parse_bib_one_entry (parse : string → result (OrderedDict.t Entry))
    (bibtex_str : string) (entries : OrderedDict.t Entry) :
  parse bibtex_str = Ok entries →
  (parse_bib parse bibtex_str = Raise (AssertionError "") ↔ length entries ≠ 1%nat)
  ∧ (∀ key entry, entries = [(key, entry)] → parse_bib parse bibtex_str = Ok entry).
Proof.
  intros Hparse. unfold parse_bib. rewrite Hparse, bind_Ok_l. split.
  - destruct (Nat.eqb_spec (length entries) 1) as [Hone | Hmore].
    + destruct entries as [|[key entry] [|second entries]]; try done.
    + simpl. done.
  - by intros key entry ->.
Qed.

Lemma parse_bib_one_entry_witness :
  parse_bib example_parse "@article{krizhevsky2012, ...}" = Ok example_entry
  ∧ parse_bib example_parse "@article{a, ...} @article{b, ...}" = Raise (AssertionError "")
  ∧ parse_bib example_parse "" = Raise (AssertionError "").
Proof.
  split; [| split].
  - apply (proj2 (parse_bib_one_entry example_parse "@article{krizhevsky2012, ...}"
                    [("krizhevsky2012", example_entry)] eq_refl) "krizhevsky2012").
    reflexivity.
  - apply (proj1 (parse_bib_one_entry example_parse "@article{a, ...} @article{b, ...}"
                    [("a", example_entry); ("b", example_entry)] eq_refl)).
    discriminate.
  - apply (proj1 (parse_bib_one_entry example_parse "" [] eq_refl)). discriminate.
Defined.

(** ** [prepare_data]: the ['i2n'] column *)

Lemma filter_id {A : Type} (P : A → Prop) `{∀ a, Decision (P a)} (l : list A) :
  Forall P l → filter P l = l.
Proof.
  induction 1 as [|a l Ha _ IH]; [done |]. by rewrite filter_cons, decide_True, IH.
Qed.

Lemma i2n_column_cornet (behavior : gmap string float) (data : list neural_row) :
  "cornet" ∈ (model <$> data) → i2n_column behavior data = Raise length_mismatch.
Proof.
  intros Hcornet. unfold i2n_column, set_column, i2n_values.
  assert (length (filter (fun name : string => name ≠ "cornet") (model <$> data))
          < length (model <$> data)) as Hlt.
  { eapply length_filter_lt; [done | by intros []]. }
  rewrite length_fmap in Hlt. rewrite length_fmap.
  destruct (Nat.eqb_spec (length (filter (fun name : string => name ≠ "cornet") (model <$> data)))
              (length data)) as [Heq | _]; [lia | done].
Qed.

Lemma i2n_column_no_cornet (behavior : gmap string float) (data : list neural_row) :
  "cornet" ∉ (model <$> data) →
  i2n_column behavior data
  = Ok (zip data ((fun r => default NaN (behavior !! model r)) <$> data)).
Proof.
  intros Hcornet. unfold i2n_column, set_column, i2n_values.
  assert (filter (fun name : string => name ≠ "cornet") (model <$> data) = model <$> data)
    as ->.
  { apply filter_id, Forall_forall. intros name Hin ->. done. }
  rewrite <- list_fmap_compose, length_fmap, Nat.eqb_refl. done.
Qed.

Lemma i2n_column_Ok (behavior : gmap string float) (data : list neural_row)
    (with_i2n : list (neural_row * float)) :
  i2n_column behavior data = Ok with_i2n →
  ("cornet" ∉ (model <$> data))
  ∧ with_i2n = zip data ((fun r => default NaN (behavior !! model r)) <$> data).
Proof.
  intros Hok. destruct (decide ("cornet" ∈ (model <$> data))) as [Hin | Hnotin].
  - by rewrite i2n_column_cornet in Hok.
  - rewrite i2n_column_no_cornet in Hok by done. by injection Hok as <-.
Qed.

Lemma parse_neural_data_models (fit : string → string → result (float * float))
    (models : list string) (data : list neural_row) (csv : option (list neural_row)) :
  parse_neural_data fit None models = Ok (data, csv) →
  model <$> data = models ∧ csv = Some data.
Proof.
  unfold parse_neural_data.
  intros (v4s & Hv4 & (its & Hit & [= <- <-])%bind_Ok)%bind_Ok. split; [| done].
  apply for_each_Ok, Forall2_length in Hv4, Hit.
  clear -Hv4 Hit. revert v4s its Hv4 Hit.
  induction models as [|m models IH]; intros [|v v4s] [|i its] Hv Hi; try done.
  simpl. f_equal. apply IH; by simplify_eq/=.
Qed.

(** ** [prepare_data]: the ['global'] column *)

Lemma np_mean_single (x : float) : float_same (np_mean [x]) x.
Proof.
  destruct x as [|q]; [done |]. unfold np_mean. simpl.
  change (inject_Z (Z.of_nat 1)) with 1%Q. field.
Qed.

Lemma first_where_fmap (f : string → float) (keys : list string) (key : string) (v : float) :
  first_where keys (f <$> keys) key = Ok v → v = f key.
Proof.
  unfold first_where.
  destruct (filter (fun kv : string * float => kv.1 = key) (zip keys (f <$> keys)))
    as [|[k v'] rest] eqn:Hfilter; [done |].
  intros [= <-].
  assert ((k, v') ∈ filter (fun kv : string * float => kv.1 = key) (zip keys (f <$> keys)))
    as [Hkey Hin]%list_elem_of_filter by (rewrite Hfilter; left).
  simpl in Hkey. subst k.
  apply elem_of_lookup_zip_with in Hin as (i & k & w & [= -> ->] & Hk & Hw).
  rewrite list_lookup_fmap, Hk in Hw. by injection Hw as <-.
Qed.

Lemma global_scores_Ok (f : string → float) (names : list string)
    (scores : list (list float)) :
  global_scores names (f <$> names) = Ok scores → scores = (fun name => [f name]) <$> names.
Proof.
  unfold global_scores. intros Hall%for_each_Ok.
  induction Hall as [|name s names' scores' Hs _ IH]; [done |].
  apply bind_Ok in Hs as (x & ->%first_where_fmap & [= <-]). simpl. by rewrite IH.
Qed.

Lemma elem_of_factorize (keys : list string) (k : string) :
  k ∈ factorize keys ↔ k ∈ keys.
Proof.
  induction keys as [|key keys IH]; [done |].
  cbn [factorize]. rewrite !elem_of_cons, list_elem_of_filter, IH.
  destruct (decide (k = key)); naive_solver.
Qed.

Lemma elem_of_merge_meta (ranked : list (score_row * float)) (model_meta : list meta_row)
    (x : row) :
  x ∈ merge_meta ranked model_meta
  ↔ ∃ r meta, r ∈ ranked ∧ meta ∈ model_meta ∧ meta_model meta = model (neural r.1)
              ∧ x = Row r.1 r.2 (meta_link meta) (meta_bibtex meta).
Proof.
  unfold merge_meta, merge_rows. split.
  - intros (key & (r & (meta & ->%list_elem_of_singleton & [Hmeta Hin]%list_elem_of_filter)
      %list_elem_of_bind & [_ Hr]%list_elem_of_filter)%list_elem_of_bind & _)%list_elem_of_bind.
    by exists r, meta.
  - intros (r & meta & Hr & Hin & Hmeta & ->).
    apply list_elem_of_bind. exists (model (neural r.1)). split.
    + apply list_elem_of_bind. exists r. split; [| by apply list_elem_of_filter].
      apply list_elem_of_bind. exists meta. split; [left | by apply list_elem_of_filter].
    + apply elem_of_factorize, list_elem_of_fmap. by exists r.
Qed.

Lemma score_table_global (lib : library) (model_meta : list meta_row)
    (models : list string) (data : list neural_row) (rows : list row) :
  score_table lib model_meta models data = Ok rows →
  ∀ r, r ∈ rows → float_same (global (scores r)) (i2n (scores r)).
Proof.
  unfold score_table.
  intros (with_i2n & [_ ->]%i2n_column_Ok & (perf & _ & (scores0 & Hscores
    & (glob & Hglob & (_ & _ & (_ & _ & [= <-])%bind_Ok)%bind_Ok)%bind_Ok)%bind_Ok)%bind_Ok)%bind_Ok.
  rewrite snd_zip in Hscores by (by rewrite length_fmap).
  rewrite snd_zip by (by rewrite length_fmap).
  assert ((fun r => default NaN (model_behavior model_meta !! model r)) <$> data
          = (fun name => default NaN (model_behavior model_meta !! name)) <$> (model <$> data))
    as Hcol by (by rewrite <- list_fmap_compose).
  rewrite Hcol in Hscores.
  apply global_scores_Ok in Hscores. subst scores0.
  assert (glob = (fun r => np_mean [default NaN (model_behavior model_meta !! model r)]) <$> data)
    as ->.
  { unfold np_mean_axis1 in Hglob. rewrite <- !list_fmap_compose in Hglob.
    destruct data; [done |]. by injection Hglob as <-. }
  intros r Hr.
  apply elem_of_merge_meta in Hr as ([s rk] & meta & Hs & _ & _ & ->). cbn [scores fst].
  apply elem_of_zip_l, list_elem_of_filter in Hs as [_ Hs].
  apply list_elem_of_fmap in Hs as ([n [b [p g]]] & -> & Hs). cbn [global i2n].
  apply elem_of_lookup_zip_with in Hs as (i & n' & bpg & [= <- <-] & Hn & Hbpg).
  apply lookup_zip_with_Some in Hbpg as (b' & pg & [= <- <-] & Hb & Hpg).
  apply lookup_zip_with_Some in Hpg as (p' & g' & [= <- <-] & _ & Hg).
  rewrite list_lookup_fmap, Hn in Hb, Hg. injection Hb as <-. injection Hg as <-.
  apply np_mean_single.
Qed.

(** C3.  In every row of the table that [prepare_data] returns, the
    ['global'] score is the ['i2n'] value of the row: the mean is taken over
    a list that holds the behavioral score and nothing else. *)
Theorem prepare_data_global_is_i2n (lib : library) (model_meta : list meta_row)
    (models : list string) (neural_csv : option (list neural_row)) (rows : list row) :
  (prepare_data lib model_meta models neural_csv).2 = Ok rows →
  ∀ r, r ∈ rows → float_same (global (scores r)) (i2n (scores r)).
Proof.
  unfold prepare_data.
  destruct (parse_neural_data (neural_fit lib) neural_csv models) as [[data csv'] | e];
    [| done].
  cbn [snd]. apply score_table_global.
Qed.

Lemma prepare_data_global_is_i2n_witness :
  ∃ rows,
    (prepare_data example_lib example_meta ["alexnet"; "resnet-18"] None).2 = Ok rows
    ∧ length rows = 2%nat
    ∧ ∀ r, r ∈ rows → float_same (global (scores r)) (i2n (scores r)).
Proof.
  eexists. split; [vm_compute; reflexivity |]. split; [reflexivity |].
  apply (prepare_data_global_is_i2n example_lib example_meta ["alexnet"; "resnet-18"] None).
  vm_compute. reflexivity.
Defined.

(** ** [prepare_data]: ['cornet'] *)

(** C9 as stated fails when [neural.csv] exists: the rows come from the
    file, not from the model list.  With a file that holds [alexnet] alone,
    the model list [alexnet, cornet] gets its ['i2n'] column and its table;
    with a file that holds [cornet], the model list [alexnet] fails. *)
Lemma saved_rows_decide_cornet :
  ("cornet" ∈ ["alexnet"; "cornet"]
   ∧ i2n_column (model_behavior example_meta) [saved_alexnet]
     = Ok [(saved_alexnet, Fin 0.37)]
   ∧ ∃ rows,
       (prepare_data example_lib example_meta ["alexnet"; "cornet"] (Some [saved_alexnet])).2
       = Ok rows)
  ∧ (("cornet" ∉ ["alexnet"])
     ∧ (prepare_data example_lib example_meta ["alexnet"]
          (Some [saved_alexnet; saved_cornet])).2
       = Raise (ValueError "Length of values does not match length of index")).
Proof.
  split; [split; [| split] | split].
  - right. left.
  - vm_compute. reflexivity.
  - eexists. vm_compute. reflexivity.
  - by intros [[=] | []%not_elem_of_nil]%elem_of_cons.
  - vm_compute. reflexivity.
Qed.

(** C9, amended.  The rows are those that [parse_neural_data] returns: the
    model list when there is no [neural.csv], the rows of the file
    otherwise.  If one of them is ['cornet'], the list built for ['i2n'] is
    too short, the assignment raises and [prepare_data] ends with that
    error; if none is, the column has one entry per row, the behavioral
    score of the row's model, or NaN without one. *)
Theorem i2n_column_and_cornet (lib : library) (model_meta : list meta_row)
    (models : list string) (neural_csv : option (list neural_row))
    (data : list neural_row) (neural_csv' : option (list neural_row)) :
  parse_neural_data (neural_fit lib) neural_csv models = Ok (data, neural_csv') →
  (neural_csv = None → model <$> data = models)
  ∧ (∀ saved, neural_csv = Some saved → data = saved)
  ∧ ("cornet" ∈ (model <$> data) →
     i2n_column (model_behavior model_meta) data
     = Raise (ValueError "Length of values does not match length of index")
     ∧ prepare_data lib model_meta models neural_csv
       = (neural_csv', Raise (ValueError "Length of values does not match length of index")))
  ∧ ("cornet" ∉ (model <$> data) →
     ∃ column,
       i2n_column (model_behavior model_meta) data = Ok (zip data column)
       ∧ length column = length data
       ∧ ∀ i r, data !! i = Some r →
                column !! i = Some (default NaN (model_behavior model_meta !! model r))).
Proof.
  intros Hparse. split; [| split; [| split]].
  - intros ->. by apply parse_neural_data_models in Hparse as [? _].
  - intros saved ->. by injection Hparse as <- _.
  - intros Hcornet. pose proof (i2n_column_cornet (model_behavior model_meta) data Hcornet)
      as Hcol.
    split; [done |]. unfold prepare_data. rewrite Hparse.
    unfold score_table. fold length_mismatch. by rewrite Hcol.
  - intros Hcornet.
    exists ((fun r => default NaN (model_behavior model_meta !! model r)) <$> data).
    split; [by apply i2n_column_no_cornet |]. split; [by rewrite length_fmap |].
    intros i r Hr. by rewrite list_lookup_fmap, Hr.
Qed.

Lemma i2n_column_and_cornet_witness :
  (prepare_data example_lib example_meta ["alexnet"; "cornet"] None).2
  = Raise (ValueError "Length of values does not match length of index")
  ∧ ∃ column,
      i2n_column (model_behavior example_meta) [saved_alexnet; NeuralRow "vgg-16" NaN NaN NaN NaN]
      = Ok (zip [saved_alexnet; NeuralRow "vgg-16" NaN NaN NaN NaN] column)
      ∧ column !! 1%nat = Some NaN.
Proof.
  split.
  - pose proof (i2n_column_and_cornet example_lib example_meta ["alexnet"; "cornet"] None
                  [saved_alexnet; saved_cornet] (Some [saved_alexnet; saved_cornet]) eq_refl)
      as (_ & _ & Hcornet & _).
    destruct Hcornet as [_ ->]; [right; left | reflexivity].
  - pose proof (i2n_column_and_cornet example_lib example_meta ["alexnet"; "vgg-16"]
                  (Some [saved_alexnet; NeuralRow "vgg-16" NaN NaN NaN NaN])
                  [saved_alexnet; NeuralRow "vgg-16" NaN NaN NaN NaN]
                  (Some [saved_alexnet; NeuralRow "vgg-16" NaN NaN NaN NaN]) eq_refl)
      as (_ & _ & _ & Hclean).
    destruct Hclean as (column & Hcolumn & _ & Hentries).
    + by intros [[=] | [[=] | []%not_elem_of_nil]%elem_of_cons]%elem_of_cons.
    + exists column. split; [done |]. apply (Hentries 1%nat _ eq_refl).
Defined.

(** ** [prepare_data]: the ['rank'] column *)

Lemma zip3_scored (model_meta : list meta_row) (data : list neural_row) (perf : list float) :
  (fun '(n, (b, (p, g))) => ScoreRow n b p g)
    <$> zip data
          (zip ((fun r => default NaN (model_behavior model_meta !! model r)) <$> data)
               (zip perf
                    ((fun r => np_mean [default NaN (model_behavior model_meta !! model r)])
                       <$> data)))
  = scored model_meta data perf.
Proof.
  unfold scored. revert perf.
  induction data as [|n data IH]; intros [|p perf]; try done.
  cbn [fmap list_fmap zip zip_with]. by rewrite <- IH.
Qed.

Lemma score_table_Ok (lib : library) (model_meta : list meta_row) (models : list string)
    (data : list neural_row) (rows : list row) :
  score_table lib model_meta models data = Ok rows →
  ("cornet" ∉ (model <$> data))
  ∧ data ≠ []
  ∧ ∃ perf,
      performance_values (model_performance model_meta) (model <$> data) = Ok perf
      ∧ let kept := filter (fun s => model (neural s) ∈ models) (scored model_meta data perf) in
        rows = merge_meta (zip kept (rank_descending (global <$> kept))) model_meta
        ∧ (∃ fixture, _create_fixture (parse_string lib) rows = Ok fixture)
        ∧ _create_latex_table lib rows = Ok tt.
Proof.
  unfold score_table.
  intros (with_i2n & [Hcornet ->]%i2n_column_Ok & (perf & Hperf & (scores0 & Hscores
    & (glob & Hglob & (fixture & Hfixture & ([] & Hlatex & [= <-])%bind_Ok)%bind_Ok)%bind_Ok)
    %bind_Ok)%bind_Ok)%bind_Ok.
  rewrite snd_zip in Hscores, Hfixture, Hlatex |- * by (by rewrite length_fmap).
  assert ((fun r => default NaN (model_behavior model_meta !! model r)) <$> data
          = (fun name => default NaN (model_behavior model_meta !! name)) <$> (model <$> data))
    as Hcol by (by rewrite <- list_fmap_compose).
  rewrite Hcol in Hscores. apply global_scores_Ok in Hscores. subst scores0.
  assert (data ≠ []) as Hdata by (intros ->; done).
  assert (glob = (fun r => np_mean [default NaN (model_behavior model_meta !! model r)]) <$> data)
    as ->.
  { unfold np_mean_axis1 in Hglob. rewrite <- !list_fmap_compose in Hglob.
    destruct data; [done |]. by injection Hglob as <-. }
  rewrite zip3_scored in Hfixture, Hlatex |- *.
  split; [done |]. split; [done |]. exists perf. split; [done |]. cbn zeta.
  split; [done |]. split; [by exists fixture | done].
Qed.

Lemma kept_neural (model_meta : list meta_row) (models : list string)
    (data : list neural_row) :
  ∀ perf,
    length perf = length data →
    neural <$> filter (fun s => model (neural s) ∈ models) (scored model_meta data perf)
    = filter (fun n => model n ∈ models) data.
Proof.
  unfold scored. induction data as [|n data IH]; intros [|p perf] Hlen; try done.
  cbn [zip zip_with fmap list_fmap]. rewrite !filter_cons. cbn [neural].
  injection Hlen as Hlen. specialize (IH perf Hlen).
  destruct (decide (model n ∈ models)); [| done].
  cbn [fmap list_fmap neural]. by rewrite <- IH.
Qed.

Lemma sum_positions (first count : nat) :
  (2 * sum_list (seq (S first) count) = count * (2 * first + count + 1))%nat.
Proof.
  revert first. induction count as [|count IH]; intros first; [done |].
  simpl seq. simpl sum_list. specialize (IH (S first)).
  remember (sum_list (seq (S (S first)) count)) as rest. nia.
Qed.

(** The rank of a value is the average of the positions that the values
    equal to it take below the values above it. *)
Lemma rank_is_average (first count : nat) :
  (Qred (inject_Z (Z.of_nat (2 * first + count + 1)) / 2) * inject_Z (Z.of_nat count)
   == inject_Z (Z.of_nat (sum_list (seq (S first) count))))%Q.
Proof.
  rewrite Qred_correct. pose proof (sum_positions first count) as Hsum.
  unfold Qeq, Qdiv, Qmult, Qinv, inject_Z. cbn [Qnum Qden]. nia.
Qed.

(** C7, amended.  The ['rank'] column of [prepare_data] is
    [rank(ascending=False)] of the ['global'] column of the rows whose model
    is in the model list.  The ranks descend with the score: [0.9, 0.5, 0.7]
    gets [1, 3, 2], a higher score always gets a smaller rank, and a score
    that no other row reaches or ties gets rank 1.  Rows with equal scores
    get the same rank, the average of the positions they take: two rows tied
    for the highest score both get 1.5.  A row whose score is NaN gets no
    rank. *)
Theorem rank_descending_by_score :
  rank_descending [Fin 0.9; Fin 0.5; Fin 0.7] = [Fin 1; Fin 3; Fin 2]
  ∧ rank_descending [Fin 0.9; Fin 0.9; Fin 0.5] = [Fin (3 # 2); Fin (3 # 2); Fin 3]
  ∧ (∀ series i j a b,
       series !! i = Some (Fin a) →
       series !! j = Some (Fin b) →
       float_gt (Fin a) (Fin b) = true →
       ∃ rank_a rank_b,
         rank_descending series !! i = Some (Fin rank_a)
         ∧ rank_descending series !! j = Some (Fin rank_b)
         ∧ (rank_a < rank_b)%Q)
  ∧ (∀ series i a,
       series !! i = Some (Fin a) →
       (∀ j y, j ≠ i → series !! j = Some y →
               float_gt y (Fin a) = false ∧ float_eqb y (Fin a) = false) →
       rank_descending series !! i = Some (Fin 1))
  ∧ (∀ series i j a b,
       series !! i = Some (Fin a) →
       series !! j = Some (Fin b) →
       float_eqb (Fin a) (Fin b) = true →
       rank_descending series !! i = rank_descending series !! j)
  ∧ (∀ series i a,
       series !! i = Some (Fin a) →
       ∃ rank_a,
         rank_descending series !! i = Some (Fin rank_a)
         ∧ (1 ≤ tied (Fin a) series)%nat
         ∧ (rank_a * inject_Z (Z.of_nat (tied (Fin a) series))
            == inject_Z (Z.of_nat (sum_list (seq (S (above (Fin a) series))
                                                 (tied (Fin a) series)))))%Q)
  ∧ (∀ series i, series !! i = Some NaN → rank_descending series !! i = Some NaN)
  ∧ (∀ lib model_meta models neural_csv neural_csv' data rows,
       parse_neural_data (neural_fit lib) neural_csv models = Ok (data, neural_csv') →
       (prepare_data lib model_meta models neural_csv).2 = Ok rows →
       ∃ perf,
         performance_values (model_performance model_meta) (model <$> data) = Ok perf
         ∧ let kept :=
             filter (fun s => model (neural s) ∈ models) (scored model_meta data perf) in
           neural <$> kept = filter (fun n => model n ∈ models) data
           ∧ ∀ r, r ∈ rows →
                  ∃ i, kept !! i = Some (scores r)
                       ∧ rank_descending (global <$> kept) !! i = Some (rank r)).
Proof.
  split; [reflexivity |]. split; [reflexivity |].
  split; [| split; [| split; [| split; [| split]]]].
  - intros series i j a b Hi Hj Hab.
    eexists _, _. split; [by apply rank_descending_lookup |].
    split; [by apply rank_descending_lookup |].
    apply half_rank_lt.
    pose proof (above_tied_below a b series Hab).
    pose proof (tied_positive b series (list_elem_of_lookup_2 _ _ _ Hj)).
    lia.
  - intros series i a Hi Hothers.
    rewrite (rank_descending_lookup series i a Hi).
    assert (Forall (fun y => float_gt y (Fin a) = false ∧ float_eqb y (Fin a) = false)
                   (take i series ++ drop (S i) series)) as [Hpre Hpost]%Forall_app.
    { apply Forall_app. split; apply Forall_lookup; intros j y Hj.
      - apply lookup_take_Some in Hj as [Hj Hlt]. apply (Hothers j); [lia | done].
      - rewrite lookup_drop in Hj. apply (Hothers (S i + j)%nat); [lia | done]. }
    assert (above (Fin a) series = 0%nat ∧ tied (Fin a) series = 1%nat) as [-> ->];
      [| done].
    unfold above, tied. rewrite <- (take_drop_middle series i (Fin a) Hi).
    rewrite !filter_app, !filter_cons, decide_False, decide_True, !length_app;
      [| apply float_eqb_refl
       | intros Hgt; exact (float_gt_not_eqb _ _ Hgt (float_eqb_refl a))].
    rewrite !(filter_none _ (take i series)), !(filter_none _ (drop (S i) series)); [done | ..];
      (eapply Forall_impl; [eassumption |]); intros y [? ?]; congruence.
  - intros series i j a b Hi Hj Hab.
    rewrite (rank_descending_lookup series i a Hi), (rank_descending_lookup series j b Hj).
    by destruct (above_tied_proper a b series Hab) as [-> ->].
  - intros series i a Hi. eexists. split; [by apply rank_descending_lookup |].
    split; [apply tied_positive; by eapply list_elem_of_lookup_2 |].
    apply rank_is_average.
  - intros series i Hi. unfold rank_descending. by rewrite list_lookup_fmap, Hi.
  - intros lib model_meta models neural_csv neural_csv' data rows Hparse Hrows.
    unfold prepare_data in Hrows. rewrite Hparse in Hrows. cbn [snd] in Hrows.
    apply score_table_Ok in Hrows as (_ & _ & perf & Hperf & -> & _).
    exists perf. split; [done |]. cbn zeta. split.
    + apply kept_neural. unfold performance_values in Hperf.
      apply for_each_Ok, Forall2_length in Hperf. by rewrite length_fmap in Hperf.
    + intros r ([s rk] & meta & Hs & _ & _ & ->)%elem_of_merge_meta. cbn [scores rank fst snd].
      apply elem_of_lookup_zip_with in Hs as (i & s' & rk' & [= <- <-] & Hs & Hrk).
      by exists i.
Qed.

Lemma rank_descending_by_score_witness :
  rank_descending [Fin 0.9; Fin 0.5; Fin 0.7] !! 0%nat = Some (Fin 1)
  ∧ (∃ rank_a rank_b,
       rank_descending [Fin 0.9; Fin 0.9; Fin 0.5] !! 1%nat = Some (Fin rank_a)
       ∧ rank_descending [Fin 0.9; Fin 0.9; Fin 0.5] !! 2%nat = Some (Fin rank_b)
       ∧ (rank_a < rank_b)%Q)
  ∧ ∃ perf,
      performance_values (model_performance example_meta) (model <$> alexnet_twice) = Ok perf
      ∧ let kept :=
          filter (fun s => model (neural s) ∈ ["resnet-18"; "alexnet"])
                 (scored example_meta alexnet_twice perf) in
        neural <$> kept = filter (fun n => model n ∈ ["resnet-18"; "alexnet"]) alexnet_twice
        ∧ ∀ r, r ∈ default [] (match (prepare_data example_lib example_meta
                                         ["resnet-18"; "alexnet"] (Some alexnet_twice)).2 with
                               | Ok rows => Some rows
                               | Raise _ => None
                               end) →
               ∃ i, kept !! i = Some (scores r)
                    ∧ rank_descending (global <$> kept) !! i = Some (rank r).
Proof.
  split; [| split].
  - apply (proj1 (proj2 (proj2 (proj2 rank_descending_by_score)))
             [Fin 0.9; Fin 0.5; Fin 0.7] 0%nat 0.9%Q);
      [reflexivity |].
    intros [|[|[|j]]] y Hj; try done; by intros [= <-].
  - apply (proj1 (proj2 (proj2 rank_descending_by_score)) [Fin 0.9; Fin 0.9; Fin 0.5]
             1%nat 2%nat 0.9%Q 0.5%Q); reflexivity.
  - apply (proj2 (proj2 (proj2 (proj2 (proj2 (proj2 (proj2 rank_descending_by_score))))))
             example_lib example_meta ["resnet-18"; "alexnet"] (Some alexnet_twice)
             (Some alexnet_twice) alexnet_twice);
      [reflexivity | vm_compute; reflexivity].
Defined.

(** * Further properties *)

(** ** Layer names and the names of [layers()] *)

Lemma str_split_cons (part rest : string) :
  has_char SUBMODULE_SEPARATOR part = false →
  str_split SUBMODULE_SEPARATOR (part +:+ String SUBMODULE_SEPARATOR rest)
  = part :: str_split SUBMODULE_SEPARATOR rest.
Proof.
  induction part as [|c part IH]; intros Hpart.
  - reflexivity.
  - cbn [has_char] in Hpart. apply orb_false_iff in Hpart as [Hc Hpart].
    change (String c part +:+ String SUBMODULE_SEPARATOR rest)
      with (String c (part +:+ String SUBMODULE_SEPARATOR rest)).
    cbn [str_split]. rewrite Hc, (IH Hpart). done.
Qed.

Lemma str_split_no_sep (part : string) :
  has_char SUBMODULE_SEPARATOR part = false → str_split SUBMODULE_SEPARATOR part = [part].
Proof.
  induction part as [|c part IH]; intros Hpart; [done |].
  cbn [has_char] in Hpart. apply orb_false_iff in Hpart as [Hc Hpart].
  cbn [str_split]. by rewrite Hc, (IH Hpart).
Qed.

Lemma str_split_join (parts : list string) :
  parts ≠ [] →
  Forall (fun part => has_char SUBMODULE_SEPARATOR part = false) parts →
  str_split SUBMODULE_SEPARATOR (str_join sep parts) = parts.
Proof.
  induction parts as [|p parts IH]; [done | intros _].
  intros [Hp Hparts]%Forall_cons. destruct parts as [|q parts].
  - by apply str_split_no_sep.
  - change (str_join sep (p :: q :: parts))
      with (p +:+ String SUBMODULE_SEPARATOR (str_join sep (q :: parts))).
    rewrite str_split_cons by done. by rewrite IH.
Qed.

(** Splitting at the dots of a name put together from two names. *)
Lemma str_split_dot (a b : string) :
  str_split SUBMODULE_SEPARATOR (a +:+ sep +:+ b)
  = str_split SUBMODULE_SEPARATOR a ++ str_split SUBMODULE_SEPARATOR b.
Proof.
  induction a as [|c a IH].
  - reflexivity.
  - change (String c a +:+ sep +:+ b) with (String c (a +:+ sep +:+ b)).
    cbn [str_split]. rewrite IH. destruct (Ascii.eqb c SUBMODULE_SEPARATOR); [done |].
    pose proof (str_split_nonempty SUBMODULE_SEPARATOR a).
    by destruct (str_split SUBMODULE_SEPARATOR a).
Qed.

Lemma descend_app (parts rest : list string) :
  ∀ module,
    descend module (parts ++ rest) = descend module parts ≫= fun mid => descend mid rest.
Proof.
  induction parts as [|part parts IH]; intros module; [done |].
  cbn [app descend]. destruct (OrderedDict.get (_modules module) part); [apply IH | done].
Qed.

(** Resolution goes along the dots: [a.b] resolves from [module] to what [b]
    resolves to from the module that [a] resolves to, and to nothing if [a]
    does not resolve. *)
Theorem walk_pytorch_module_composes (module : Module) (a b : string) (found : Module) :
  walk_pytorch_module module (a +:+ sep +:+ b) = Ok found
  ↔ ∃ mid, walk_pytorch_module module a = Ok mid ∧ walk_pytorch_module mid b = Ok found.
Proof.
  unfold walk_pytorch_module.
  rewrite walk_parts_descend, str_split_dot, descend_app.
  setoid_rewrite walk_parts_descend.
  destruct (descend module (str_split SUBMODULE_SEPARATOR a)) as [mid|]; simpl.
  - split; [intros ?; by exists mid | by intros (? & [= <-] & ?)].
  - split; [done | by intros (? & ? & _)].
Qed.

Lemma walk_pytorch_module_composes_witness :
  walk_pytorch_module small_net ("features" +:+ sep +:+ "0") = Ok (Mod 2 "Conv2d" []).
Proof.
  apply (proj2 (walk_pytorch_module_composes small_net "features" "0" (Mod 2 "Conv2d" []))).
  eexists. split; reflexivity.
Defined.

Lemma at_path_descend (module : Module) (path : list string) (found : Module) :
  at_path module path found →
  well_formed module →
  descend module path = Some found
  ∧ well_formed found
  ∧ Forall (fun part => has_char SUBMODULE_SEPARATOR part = false) path.
Proof.
  induction 1 as [m | m child_name child path m' Hin Hat IH]; intros Hwf.
  - done.
  - inversion Hwf as [id cls subs Hcls Hnodup Hsubs]; subst. cbn [_modules] in Hin.
    pose proof (proj1 (Forall_forall _ _) Hsubs _ Hin) as [Hname Hchild].
    destruct (IH Hchild) as (Hdescend & Hfound & Hpath).
    split; [| split; [done | by constructor]].
    cbn [descend _modules]. by rewrite (get_elem_NoDup subs child_name child Hnodup Hin).
Qed.

(** The names that [layers()] yields are not layer names for
    [_get_activations]: such a name ends in the class name of the leaf, which
    is no child of the leaf, and [walk_pytorch_module] raises at that part.
    The name without the class name resolves to the module yielded. *)
Theorem layers_names_do_not_resolve (model : Module) (layer_name : string) (leaf : Module) :
  well_formed model →
  _modules model ≠ [] →
  (layer_name, leaf) ∈ (layers model).1 →
  ∃ path,
    layer_name = str_join sep path +:+ sep +:+ class_name leaf
    ∧ walk_pytorch_module model layer_name
      = Raise (AssertionError
                 ("No submodule found for layer " +:+ layer_name +:+ ", at part "
                  +:+ class_name leaf))
    ∧ walk_pytorch_module model (str_join sep path) = Ok leaf.
Proof.
  intros Hwf Hsubs Hin.
  rewrite (layers_with_submodules model Hsubs) in Hin. cbn [fst] in Hin.
  apply list_elem_of_fmap in Hin as ([path leaf'] & [= -> ->] & Hin).
  apply leaf_paths_at_path in Hin as (rel & -> & Hat & Hleaf). cbn [app] in *.
  destruct (at_path_descend model rel leaf' Hat Hwf) as (Hdescend & Hwfleaf & Hrel).
  assert (rel ≠ []) as Hne.
  { intros ->. inversion Hat; subst. done. }
  assert (has_char SUBMODULE_SEPARATOR (class_name leaf') = false) as Hcls.
  { by inversion Hwfleaf. }
  exists rel. unfold leaf_name. cbn [fst snd]. split; [done |]. split.
  - unfold walk_pytorch_module. rewrite <- str_join_snoc by done.
    rewrite str_split_join; [| by destruct rel | by apply Forall_app; split; [| constructor]].
    rewrite str_join_snoc by done.
    apply walk_parts_fails with (parent := leaf'); [done |]. by rewrite Hleaf.
  - unfold walk_pytorch_module. rewrite str_split_join by done.
    by apply walk_parts_descend.
Qed.

Lemma small_net_well_formed : well_formed small_net.
Proof.
  repeat first [ constructor | split | reflexivity
               | by intros ?%not_elem_of_nil
               | by (intros Hin; repeat (apply elem_of_cons in Hin as [[=] | Hin]);
                     by apply not_elem_of_nil in Hin) ].
Qed.

Lemma layers_names_do_not_resolve_witness :
  ∃ path,
    "features.0.Conv2d" = str_join sep path +:+ sep +:+ class_name (Mod 2 "Conv2d" [])
    ∧ walk_pytorch_module small_net "features.0.Conv2d"
      = Raise (AssertionError
                 ("No submodule found for layer " +:+ "features.0.Conv2d" +:+ ", at part "
                  +:+ class_name (Mod 2 "Conv2d" [])))
    ∧ walk_pytorch_module small_net (str_join sep path) = Ok (Mod 2 "Conv2d" []).
Proof.
  apply (layers_names_do_not_resolve small_net "features.0.Conv2d" (Mod 2 "Conv2d" [])).
  - apply small_net_well_formed.
  - discriminate.
  - left.
Defined.

(** ** [_get_activations]: errors, and what each key holds *)

Lemma for_each_Raise {A B : Type} (f : A → result B) (done_ : list A) (bad : A)
    (rest : list A) (e : exn) :
  Forall (fun a => ∃ b, f a = Ok b) done_ →
  f bad = Raise e →
  for_each f (done_ ++ bad :: rest) = Raise e.
Proof.
  intros Hdone Hbad. induction Hdone as [|a done_ [b Hb] _ IH]; cbn [app for_each].
  - by rewrite Hbad.
  - by rewrite Hb, bind_Ok_l, IH.
Qed.

(** An empty batch fails in [torch.stack].  Otherwise the first layer name
    that does not resolve ends the call with the assertion error of
    [walk_pytorch_module], whatever the forward pass would do: the names are
    resolved before the network runs. *)
Theorem _get_activations_unresolved (dev : device) (forward : forward_pass) (model : Module)
    (images : list ndarray) (batch : ndarray) (resolved : list string) (bad : string)
    (rest : list string) :
  (∀ layer_names,
     _get_activations dev forward model [] layer_names
     = Raise (RuntimeError "stack expects a non-empty TensorList"))
  ∧ (torch_stack images = Ok batch →
     Forall (fun layer_name =>
               is_Some (descend model (str_split SUBMODULE_SEPARATOR layer_name))) resolved →
     descend model (str_split SUBMODULE_SEPARATOR bad) = None →
     ∃ part,
       part ∈ str_split SUBMODULE_SEPARATOR bad
       ∧ _get_activations dev forward model images (resolved ++ bad :: rest)
         = Raise (AssertionError
                    ("No submodule found for layer " +:+ bad +:+ ", at part " +:+ part))).
Proof.
  split; [done |]. intros Hstack Hresolved Hbad.
  destruct (descend_None_first _ _ Hbad) as (before & part & after & parent & Hsplit & Hres & Hget).
  exists part. split; [rewrite Hsplit; apply elem_of_app; right; left |].
  unfold _get_activations. rewrite Hstack, bind_Ok_l.
  rewrite for_each_Raise with (e := AssertionError (no_submodule_msg bad part)); [done | |].
  - eapply Forall_impl; [exact Hresolved |]. intros layer_name [layer Hlayer].
    exists (ident layer, layer_name).
    apply walk_parts_descend with (layer_name := layer_name) in Hlayer.
    fold (walk_pytorch_module model layer_name) in Hlayer. by rewrite Hlayer.
  - unfold walk_pytorch_module. rewrite Hsplit.
    by rewrite (walk_parts_fails bad before model parent part after Hres Hget).
Qed.

Lemma _get_activations_unresolved_witness :
  ∃ part,
    part ∈ str_split SUBMODULE_SEPARATOR "features.7"
    ∧ _get_activations cuda (fun _ _ => Raise (RuntimeError "not reached")) small_net
        two_images (["features.0"] ++ "features.7" :: ["classifier"])
      = Raise (AssertionError
                 ("No submodule found for layer " +:+ "features.7" +:+ ", at part " +:+ part)).
Proof.
  apply (proj2 (_get_activations_unresolved cuda
                  (fun _ _ => Raise (RuntimeError "not reached")) small_net two_images
                  (Array [2; 3; 1; 1]%nat
                     [Fin 0.1; Fin 0.2; Fin 0.3; Fin 0.4; Fin 0.5; Fin 0.6])
                  ["features.0"] "features.7" ["classifier"])).
  - reflexivity.
  - repeat constructor. by eexists.
  - reflexivity.
Defined.

(** With no assumption on the forward pass: a requested layer maps to the
    array made of the tensor that the last call of its module returns (a
    module that the network runs twice is captured twice, and the second
    capture replaces the first), a requested layer whose module the pass
    never calls is missing from the mapping, and no other key is in it.  On
    the GPU the array holds the values that the tensor has when the call
    returns.  On the CPU the array shares the memory of the tensor, and
    holds the values that the memory has when the forward pass is over: an
    operation that changes the tensor in place after the call, as the
    [ReLU(inplace=True)] after a convolution does, changes the array. *)
Theorem _get_activations_last_call (dev : device) (forward : forward_pass) (model : Module)
    (images : list ndarray) (batch : ndarray) (layer_names : list string)
    (steps : list step) :
  torch_stack images = Ok batch →
  Forall (fun layer_name =>
            is_Some (descend model (str_split SUBMODULE_SEPARATOR layer_name))) layer_names →
  forward model batch = Ok steps →
  ∃ layer_results,
    _get_activations dev forward model images layer_names = Ok layer_results
    ∧ (∀ layer_name layer before output after,
         layer_name ∈ layer_names →
         walk_pytorch_module model layer_name = Ok layer →
         steps = before ++ Called (ident layer) output :: after →
         (∀ output', Called (ident layer) output' ∉ after) →
         OrderedDict.get layer_results layer_name
         = Some (tensor_values
                   (memory_after (initial_memory batch)
                      match dev with
                      | cpu => steps
                      | cuda => before
                      end)
                   output))
    ∧ (∀ layer_name layer,
         layer_name ∈ layer_names →
         walk_pytorch_module model layer_name = Ok layer →
         ¬ calls steps (ident layer) →
         OrderedDict.get layer_results layer_name = None)
    ∧ (∀ k, k ∉ layer_names → OrderedDict.get layer_results k = None).
Proof.
  intros Hstack Hresolve Hforward.
  destruct (_get_activations_run dev forward model images batch layer_names steps
              Hstack Hresolve Hforward) as (hooks & Hspec & Hrun).
  eexists. split; [exact Hrun |]. split; [| split].
  - intros layer_name layer before output after Hin Hwalk Hsteps Hlater.
    rewrite get_fmap.
    rewrite (proj2 (captured_get dev hooks (initial_memory batch) steps layer_name
                      (ident layer)
                      (cpu_data_numpy dev (memory_after (initial_memory batch) before) output)
                      (fires_layer model layer_names hooks layer_name layer Hspec Hin Hwalk)));
      [by destruct dev |].
    by exists before, output, after.
  - intros layer_name layer Hin Hwalk Hnever. rewrite get_fmap.
    destruct (OrderedDict.get _ layer_name) as [v|] eqn:Hget; [| done].
    apply (captured_get dev hooks (initial_memory batch) steps layer_name (ident layer)) in Hget
      as (before & output & after & -> & _);
      [| by apply (fires_layer model layer_names hooks layer_name layer)].
    exfalso. apply Hnever. exists output. apply elem_of_app. right. left.
  - intros k Hk. rewrite get_fmap, stored_get.
    rewrite (filter_none (fun call : nat * numpy_array => stores hooks k call = true));
      [done |].
    apply Forall_forall. intros call _ (h & Hh%Hspec & _ & <-)%stores_spec.
    by destruct Hh as (_ & ? & _).
Qed.

(** The ReLU of [twice_forward] works in place on the output of the
    convolution: on the CPU the array captured for the convolution holds the
    values after the ReLU, on the GPU those before it. *)
Example _get_activations_twice :
  _get_activations cpu twice_forward small_net two_images
    ["classifier.0"; "features.1"; "features.0"]
  = Ok [("features.0", Array [2; 4]%nat (replicate 8 (Fin 0)));
        ("features.1", Array [2; 4]%nat (replicate 8 (Fin 0)))]
  ∧ _get_activations cuda twice_forward small_net two_images
      ["classifier.0"; "features.1"; "features.0"]
    = Ok [("features.0", Array [2; 4]%nat (replicate 8 (Fin (-1))));
          ("features.1", Array [2; 4]%nat (replicate 8 (Fin 0)))].
Proof. split; reflexivity. Qed.

Lemma _get_activations_last_call_witness :
  ∃ layer_results,
    _get_activations cpu twice_forward small_net two_images
      ["classifier.0"; "features.1"; "features.0"]
    = Ok layer_results
    ∧ OrderedDict.get layer_results "features.0"
      = Some (Array [2; 4]%nat (replicate 8 (Fin 0)))
    ∧ OrderedDict.get layer_results "classifier.0" = None
    ∧ OrderedDict.get layer_results "features" = None.
Proof.
  destruct (_get_activations_last_call cpu twice_forward small_net two_images
              (Array [2; 3; 1; 1]%nat [Fin 0.1; Fin 0.2; Fin 0.3; Fin 0.4; Fin 0.5; Fin 0.6])
              ["classifier.0"; "features.1"; "features.0"]
              [Wrote 1 (replicate 8 (Fin (-1)));
               Called 2 {| storage := 1; tensor_shape := [2; 4] |};
               Wrote 1 (replicate 8 (Fin 0));
               Called 3 {| storage := 1; tensor_shape := [2; 4] |};
               Wrote 1 (replicate 8 (Fin 0));
               Called 3 {| storage := 1; tensor_shape := [2; 4] |};
               Called 1 {| storage := 1; tensor_shape := [2; 4] |};
               Called 0 {| storage := 1; tensor_shape := [2; 4] |}]%nat
              eq_refl)
    as (layer_results & Hrun & Hlast & Hnever & Hother).
  - repeat constructor; by eexists.
  - reflexivity.
  - exists layer_results. split; [done |]. split; [| split].
    + rewrite (Hlast "features.0" (Mod 2 "Conv2d" [])
                 [Wrote 1 (replicate 8 (Fin (-1)))]
                 {| storage := 1; tensor_shape := [2; 4] |}
                 [Wrote 1 (replicate 8 (Fin 0));
                  Called 3 {| storage := 1; tensor_shape := [2; 4] |};
                  Wrote 1 (replicate 8 (Fin 0));
                  Called 3 {| storage := 1; tensor_shape := [2; 4] |};
                  Called 1 {| storage := 1; tensor_shape := [2; 4] |};
                  Called 0 {| storage := 1; tensor_shape := [2; 4] |}]%nat);
        [reflexivity | do 2 right; left | reflexivity | reflexivity |].
      intros output' Hin.
      repeat (apply elem_of_cons in Hin as [Heq | Hin]; [discriminate Heq |]).
      by apply not_elem_of_nil in Hin.
    + apply (Hnever "classifier.0" (Mod 5 "Linear" [])); [left | reflexivity |].
      intros [output' Hin]. cbn [ident] in Hin.
      repeat (apply elem_of_cons in Hin as [Heq | Hin]; [discriminate Heq |]).
      by apply not_elem_of_nil in Hin.
    + apply Hother.
      intros Hin. repeat (apply elem_of_cons in Hin as [Heq | Hin]; [discriminate Heq |]).
      by apply not_elem_of_nil in Hin.
Defined.

(** ** [graph] *)

Lemma add_nodes_spec (yielded : list (string * Module)) :
  ∀ g,
    let g' := foldl (fun g y => add_node g y.1 {| object := y.2; type := class_name y.2 |})
                    g yielded in
    _edges g' = _edges g
    ∧ (∀ n, n ∈ OrderedDict.keys (_node g') ↔ n ∈ OrderedDict.keys (_node g) ∨ n ∈ yielded.*1)
    ∧ (NoDup (OrderedDict.keys (_node g)) → NoDup (OrderedDict.keys (_node g')))
    ∧ (∀ n attr, (n, attr) ∈ _node g' →
                 (n, attr) ∈ _node g
                 ∨ ((n, object attr) ∈ yielded ∧ type attr = class_name (object attr))).
Proof.
  induction yielded as [|[name leaf] yielded IH]; intros g; cbn [foldl].
  - cbn zeta. split; [done |]. split; [| split; [done | by left]].
    intros n. split; [by left | by intros [? | ?%not_elem_of_nil]].
  - destruct (IH (add_node g name {| object := leaf; type := class_name leaf |}))
      as (Hedges & Hkeys & Hnodup & Hattrs).
    cbn zeta. cbn [fst snd] in *. split; [done |]. split; [| split].
    + intros n. rewrite Hkeys. cbn [add_node _node fmap list_fmap fst].
      rewrite keys_set, elem_of_cons. naive_solver.
    + intros Hg. apply Hnodup. cbn [add_node _node]. by apply NoDup_keys_set.
    + intros n attr [Hin | [Hin Htype]]%Hattrs.
      * cbn [add_node _node] in Hin. apply elem_of_set in Hin as [[-> ->] | Hin]; [| by left].
        right. split; [left | done].
      * right. split; [by right | done].
Qed.

(** [graph()] has no edges; its nodes are the names that [layers()] yields,
    each once, and every node carries a leaf of the network and its class.
    On a root without submodules it raises the error of [layers()]. *)
Theorem graph_nodes_are_layers (model : Module) :
  (_modules model = [] →
   graph model
   = Raise (TypeError "unsupported operand type(s) for +: 'NoneType' and 'str'"))
  ∧ (_modules model ≠ [] →
     ∃ g,
       graph model = Ok g
       ∧ _edges g = []
       ∧ (∀ n, n ∈ OrderedDict.keys (_node g) ↔ n ∈ (layers model).1.*1)
       ∧ NoDup (OrderedDict.keys (_node g))
       ∧ ∀ n attr, (n, attr) ∈ _node g →
                   (n, object attr) ∈ (layers model).1
                   ∧ _modules (object attr) = []
                   ∧ type attr = class_name (object attr)).
Proof.
  split.
  - destruct model as [id cls subs]. cbn [_modules]. intros ->. reflexivity.
  - intros Hsubs. unfold graph.
    pose proof (layers_with_submodules model Hsubs) as Hlayers.
    rewrite Hlayers. cbn [fst snd].
    destruct (add_nodes_spec (named (leaf_paths model [])) {| _node := []; _edges := [] |})
      as (Hedges & Hkeys & Hnodup & Hattrs). cbn zeta in *.
    eexists. split; [done |]. split; [done |]. split; [| split].
    + intros n. rewrite Hkeys. cbn [_node]. split; [by intros [?%not_elem_of_nil | ?] | by right].
    + apply Hnodup. constructor.
    + intros n attr [Hin%not_elem_of_nil | [Hin Htype]]%Hattrs; [done |].
      split; [done |]. split; [| done].
      apply list_elem_of_fmap in Hin as ([path leaf] & [= _ ->] & Hin).
      by apply leaf_paths_at_path in Hin as (_ & _ & _ & ?).
Qed.

Lemma graph_nodes_are_layers_witness :
  graph (Mod 0 "Linear" [])
  = Raise (TypeError "unsupported operand type(s) for +: 'NoneType' and 'str'")
  ∧ ∃ g,
      graph small_net = Ok g
      ∧ _edges g = []
      ∧ (∀ n, n ∈ OrderedDict.keys (_node g) ↔ n ∈ (layers small_net).1.*1)
      ∧ NoDup (OrderedDict.keys (_node g))
      ∧ ∀ n attr, (n, attr) ∈ _node g →
                  (n, object attr) ∈ (layers small_net).1
                  ∧ _modules (object attr) = []
                  ∧ type attr = class_name (object attr).
Proof.
  split.
  - apply (proj1 (graph_nodes_are_layers (Mod 0 "Linear" []))). reflexivity.
  - apply (proj2 (graph_nodes_are_layers small_net)). discriminate.
Defined.

(** ** [_load_image]: what comes back *)

(** An error of [Image.open] goes through.  Otherwise the image returned
    has the size of the image in the file; when the mode of the file is not
    ['L'] it is that image, and when it is ['L'] it is an RGB image in which
    every pixel is black. *)
Theorem _load_image_result (image_open : string → result Image.t)
    (convert : string → Image.t → Image.t) (image_filepath : string) :
  (∀ e, image_open image_filepath = Raise e →
        _load_image image_open convert image_filepath = Raise e)
  ∧ (∀ image, image_open image_filepath = Ok image →
       ∃ loaded,
         _load_image image_open convert image_filepath = Ok loaded
         ∧ Image.size loaded = Image.size image
         ∧ (str_upper (Image.mode image) ≠ "L" → loaded = image)
         ∧ (str_upper (Image.mode image) = "L" →
            Image.mode loaded = "RGB"
            ∧ length (Image.pixels loaded) = (Image.size image).2
            ∧ Forall (fun row => length row = (Image.size image).1
                                 ∧ Forall (fun pixel => pixel = [0; 0; 0]%Z) row)
                     (Image.pixels loaded))).
Proof.
  split.
  - intros e Hopen. unfold _load_image. by rewrite Hopen.
  - intros image Hopen.
    destruct (decide (str_upper (Image.mode image) = "L")) as [Hgray | Hother].
    + eexists. split; [by apply _load_image_grayscale |]. split; [done |].
      split; [done | intros _]. cbn [Image.mode Image.pixels].
      split; [done |]. split; [apply length_replicate |].
      apply Forall_replicate. split; [apply length_replicate | by apply Forall_replicate].
    + exists image. split; [by apply _load_image_not_grayscale |]. done.
Qed.

Lemma _load_image_result_witness :
  ∃ loaded,
    _load_image (fun _ => Ok (Image.Make "RGB" (1, 1)%nat [[[10; 20; 30]%Z]])) (fun _ im => im)
      "red.png" = Ok loaded
    ∧ Image.size loaded = (1, 1)%nat
    ∧ (str_upper "RGB" ≠ "L" → loaded = Image.Make "RGB" (1, 1)%nat [[[10; 20; 30]%Z]]).
Proof.
  destruct (proj2 (_load_image_result
                     (fun _ => Ok (Image.Make "RGB" (1, 1)%nat [[[10; 20; 30]%Z]]))
                     (fun _ im => im) "red.png")
              (Image.Make "RGB" (1, 1)%nat [[[10; 20; 30]%Z]]) eq_refl)
    as (loaded & Hload & Hsize & Hsame & _).
  by exists loaded.
Defined.

(** ** [_preprocess_images] and the batch *)

Lemma chunks_concat {A : Type} (size : nat) (ls : list (list A)) :
  Forall (fun l => length l = size) ls → chunks (length ls) size (concat ls) = ls.
Proof.
  induction 1 as [|l ls Hl _ IH]; [done |].
  cbn [length concat chunks].
  rewrite take_app_length' by done. rewrite drop_app_length' by done. by rewrite IH.
Qed.

Lemma sum_list_ones {A : Type} (l : list A) : sum_list ((fun _ => 1%nat) <$> l) = length l.
Proof. induction l as [|a l IH]; [done |]. cbn. by rewrite IH. Qed.

(** An empty list of images fails in [np.concatenate].  When the transform
    gives every image a tensor of one shape, [_preprocess_images] returns an
    array with one row per image, in order, and [_get_activations], which
    takes the array apart row by row and stacks the rows, works on that same
    array. *)
Theorem _preprocess_images_batch (fromarray : ndarray → Image.t)
    (transform : nat → Image.t → result ndarray) (images : list (ndarray + Image.t))
    (image_size : nat) (tensors : list ndarray) (tensor_shape : list nat) :
  _preprocess_images fromarray transform [] image_size
  = Raise (ValueError "need at least one array to concatenate")
  ∧ (images ≠ [] →
     Forall2 (fun image tensor =>
                transform image_size
                  match image with inl array => fromarray array | inr image => image end
                = Ok tensor) images tensors →
     Forall (fun tensor => shape tensor = tensor_shape
                           ∧ length (data tensor) = foldr Nat.mul 1%nat tensor_shape)
            tensors →
     ∃ batch,
       _preprocess_images fromarray transform images image_size = Ok batch
       ∧ shape batch = length images :: tensor_shape
       ∧ array_rows batch = tensors
       ∧ torch_stack (array_rows batch) = Ok batch).
Proof.
  split; [done |]. intros Hne Htransform Htensors.
  assert (for_each (fun image => _preprocess_image fromarray transform image image_size) images
          = Ok (unsqueeze0 <$> tensors)) as Heach.
  { apply for_each_Ok, Forall2_fmap_r.
    eapply Forall2_impl; [exact Htransform |]. intros image tensor Htensor.
    unfold _preprocess_image. by rewrite Htensor. }
  pose proof (Forall2_length _ _ _ Htransform) as Hlen.
  destruct tensors as [|first tensors]; [by destruct images |].
  exists (Array (length images :: tensor_shape) (concat (data <$> first :: tensors))).
  assert (Forall (fun l => length l = foldr Nat.mul 1%nat tensor_shape)
                 (data <$> first :: tensors)) as Hdata.
  { apply Forall_fmap. eapply Forall_impl; [exact Htensors |]. by intros t [_ ?]. }
  assert (array_rows (Array (length images :: tensor_shape) (concat (data <$> first :: tensors)))
          = first :: tensors) as Hrows.
  { unfold array_rows. cbn [shape data].
    rewrite Hlen, <- (length_fmap data), chunks_concat by done.
    rewrite <- list_fmap_compose. rewrite <- (list_fmap_id (first :: tensors)) at 2.
    apply Forall_fmap_ext. eapply Forall_impl; [exact Htensors |].
    intros [s d] [Hs _]. cbn in *. by subst. }
  split; [| split; [done | split; [done |]]].
  - unfold _preprocess_images. rewrite Heach, bind_Ok_l.
    unfold np_concatenate. cbn [fmap list_fmap unsqueeze0 shape].
    assert (forallb (fun a => bool_decide (shape a ≠ [] ∧ tail (shape a) = shape first))
                    (unsqueeze0 first :: (unsqueeze0 <$> tensors)) = true) as ->.
    { apply forallb_forall. intros a Hin%list_elem_of_In.
      change (unsqueeze0 first :: (unsqueeze0 <$> tensors))
        with (unsqueeze0 <$> first :: tensors) in Hin.
      apply list_elem_of_fmap in Hin as (t & -> & Hin).
      apply bool_decide_eq_true. split; [done |]. cbn.
      pose proof (proj1 (Forall_forall _ _) Htensors) as Hall.
      destruct (Hall t Hin) as [-> _]. destruct (Hall first) as [-> _]; [left | done]. }
    f_equal. f_equal.
    + f_equal.
      * change (unsqueeze0 first :: (unsqueeze0 <$> tensors))
          with (unsqueeze0 <$> first :: tensors).
        rewrite <- list_fmap_compose, Hlen. apply (sum_list_ones (first :: tensors)).
      * by destruct (proj1 (Forall_forall _ _) Htensors first) as [-> _]; [left |].
    + change (unsqueeze0 first :: (unsqueeze0 <$> tensors))
        with (unsqueeze0 <$> first :: tensors).
      by rewrite <- list_fmap_compose.
  - rewrite Hrows.
    rewrite (torch_stack_Ok (first :: tensors) first); [| done |].
    + do 2 f_equal. f_equal; [done |].
      by destruct (proj1 (Forall_forall _ _) Htensors first) as [-> _]; [left |].
    + eapply Forall_impl; [exact Htensors |]. intros t [-> _].
      by destruct (proj1 (Forall_forall _ _) Htensors first) as [-> _]; [left |].
Qed.

Lemma _preprocess_images_batch_witness :
  ∃ batch,
    _preprocess_images (fun _ => white_pixel) flat_transform
      [inr white_pixel; inl (Array [1; 1]%nat [Fin 1])] 224 = Ok batch
    ∧ shape batch = [2; 3; 1; 1]%nat
    ∧ array_rows batch
      = [Array [3; 1; 1]%nat [Fin 0.1; Fin 0.2; Fin 0.3];
         Array [3; 1; 1]%nat [Fin 0.1; Fin 0.2; Fin 0.3]]
    ∧ torch_stack (array_rows batch) = Ok batch.
Proof.
  apply (proj2 (_preprocess_images_batch (fun _ => white_pixel) flat_transform
                  [inr white_pixel; inl (Array [1; 1]%nat [Fin 1])] 224
                  [Array [3; 1; 1]%nat [Fin 0.1; Fin 0.2; Fin 0.3];
                   Array [3; 1; 1]%nat [Fin 0.1; Fin 0.2; Fin 0.3]]
                  [3; 1; 1]%nat)).
  - discriminate.
  - by repeat constructor.
  - by repeat constructor.
Defined.

(** ** The dictionaries of [models.csv] *)

Lemma column_dict_lookup (column : meta_row → float) (model_meta : list meta_row)
    (name : string) :
  column_dict column model_meta !! name
  = column <$> list.last (filter (fun r => meta_model r = name) model_meta).
Proof.
  unfold column_dict.
  assert (∀ d : gmap string float,
            foldl (fun d row => <[meta_model row := column row]> d) d model_meta !! name
            = match list.last (filter (fun r => meta_model r = name) model_meta) with
              | Some r => Some (column r)
              | None => d !! name
              end) as Hfold.
  { induction model_meta as [|r model_meta IH] using rev_ind; intros d; [done |].
    rewrite foldl_snoc, filter_app, filter_cons, filter_nil.
    destruct (decide (meta_model r = name)) as [<- | Hne].
    - by rewrite last_snoc, lookup_insert_eq.
    - rewrite app_nil_r, lookup_insert_ne by done. apply IH. }
  rewrite Hfold. by destruct (list.last _).
Qed.

(** A model that [models.csv] lists twice has the values of its last row.
    The top-1 value that the file gives for [alexnet] or [squeezenet] is
    never used: the two entries are set after the file is read, also when
    the file has no such row. *)
Theorem model_performance_lookup (model_meta : list meta_row) (name : string) :
  model_performance model_meta !! "alexnet" = Some (float_literal 0.5767)
  ∧ model_performance model_meta !! "squeezenet" = Some (float_literal 0.575)
  ∧ (name ≠ "alexnet" → name ≠ "squeezenet" →
     model_performance model_meta !! name
     = top1 <$> list.last (filter (fun r => meta_model r = name) model_meta))
  ∧ model_behavior model_meta !! name
    = behav_r <$> list.last (filter (fun r => meta_model r = name) model_meta).
Proof.
  unfold model_performance, model_behavior. split; [| split; [| split]].
  - rewrite lookup_insert_ne by done. by rewrite lookup_insert_eq.
  - by rewrite lookup_insert_eq.
  - intros Halex Hsqueeze. rewrite !lookup_insert_ne by done. apply column_dict_lookup.
  - apply column_dict_lookup.
Qed.

Lemma model_performance_lookup_witness :
  model_performance
    [MetaRow "vgg-16" (Fin 0.7) NaN None None; MetaRow "vgg-16" (Fin 0.715) NaN None None]
  !! "vgg-16" = Some (Fin 0.715).
Proof.
  rewrite (proj1 (proj2 (proj2 (model_performance_lookup
             [MetaRow "vgg-16" (Fin 0.7) NaN None None;
              MetaRow "vgg-16" (Fin 0.715) NaN None None] "vgg-16")))); done.
Defined.

(** ** [prepare_data]: errors and the rows returned *)

(** A table without rows makes [prepare_data] fail in [np.mean]: the empty
    list of score lists has no axis 1.  No empty table is scored. *)
Theorem prepare_data_no_rows (lib : library) (model_meta : list meta_row)
    (models : list string) (neural_csv neural_csv' : option (list neural_row)) :
  parse_neural_data (neural_fit lib) neural_csv models = Ok ([], neural_csv') →
  prepare_data lib model_meta models neural_csv
  = (neural_csv', Raise (AxisError "axis 1 is out of bounds for array of dimension 1")).
Proof. intros Hparse. unfold prepare_data. by rewrite Hparse. Qed.

Lemma prepare_data_no_rows_witness :
  prepare_data example_lib example_meta ["alexnet"] (Some [])
  = (Some [], Raise (AxisError "axis 1 is out of bounds for array of dimension 1")).
Proof. apply (prepare_data_no_rows example_lib example_meta ["alexnet"] (Some []) (Some [])). reflexivity. Defined.

(** A model without a behavioral score gets NaN in ['i2n'], but a model
    without an ImageNet performance ends [prepare_data]: the first row of
    the table whose model has no entry in [model_performance] raises the
    [KeyError] of that model. *)
Theorem prepare_data_unknown_model (lib : library) (model_meta : list meta_row)
    (models : list string) (neural_csv neural_csv' : option (list neural_row))
    (data : list neural_row) (known : list string) (unknown : string) (rest : list string) :
  parse_neural_data (neural_fit lib) neural_csv models = Ok (data, neural_csv') →
  "cornet" ∉ (model <$> data) →
  model <$> data = known ++ unknown :: rest →
  Forall (fun name => is_Some (model_performance model_meta !! name)) known →
  model_performance model_meta !! unknown = None →
  prepare_data lib model_meta models neural_csv = (neural_csv', Raise (KeyError unknown)).
Proof.
  intros Hparse Hcornet Hcolumn Hknown Hunknown.
  unfold prepare_data. rewrite Hparse. f_equal.
  unfold score_table. rewrite (i2n_column_no_cornet _ data Hcornet), bind_Ok_l.
  unfold performance_values. rewrite Hcolumn.
  rewrite for_each_Raise with (e := KeyError unknown); [done | | by rewrite Hunknown].
  eapply Forall_impl; [exact Hknown |]. intros name [p ->]. by eexists.
Qed.

Lemma prepare_data_unknown_model_witness :
  prepare_data example_lib example_meta ["alexnet"; "vgg-16"] None
  = (Some [saved_alexnet; NeuralRow "vgg-16" (Fin 0.6) (Fin 0.01) (Fin 0.5) (Fin 0.02)],
     Raise (KeyError "vgg-16")).
Proof.
  apply (prepare_data_unknown_model example_lib example_meta ["alexnet"; "vgg-16"] None
           (Some [saved_alexnet; NeuralRow "vgg-16" (Fin 0.6) (Fin 0.01) (Fin 0.5) (Fin 0.02)])
           [saved_alexnet; NeuralRow "vgg-16" (Fin 0.6) (Fin 0.01) (Fin 0.5) (Fin 0.02)]
           ["alexnet"] "vgg-16" []).
  - reflexivity.
  - by intros [[=] | [[=] | []%not_elem_of_nil]%elem_of_cons]%elem_of_cons.
  - reflexivity.
  - repeat constructor. by eexists.
  - reflexivity.
Defined.

Lemma performance_values_lookup (perf_dict : gmap string float) (names : list string)
    (perf : list float) (i : nat) (name : string) (p : float) :
  performance_values perf_dict names = Ok perf →
  names !! i = Some name → perf !! i = Some p →
  ∃ top, perf_dict !! name = Some top ∧ p = float_mul (Fin 100) top.
Proof.
  unfold performance_values. intros Hall%for_each_Ok Hname Hp.
  pose proof (Forall2_lookup_lr _ _ _ _ _ _ Hall Hname Hp) as Hi. cbn in Hi.
  destruct (perf_dict !! name) as [top|]; [| done]. exists top. split; [done |].
  by injection Hi as <-.
Qed.

(** Every row that [prepare_data] returns is a row of the table whose model
    is in the model list and has a row in [models.csv]: it carries the link
    and the BibTeX string of that row, the float64 product of 100 and the
    model's entry of [model_performance], and as ['i2n'] the model's
    behavioral score, NaN without one. *)
Theorem prepare_data_rows (lib : library) (model_meta : list meta_row)
    (models : list string) (neural_csv neural_csv' : option (list neural_row))
    (data : list neural_row) (rows : list row) (r : row) :
  parse_neural_data (neural_fit lib) neural_csv models = Ok (data, neural_csv') →
  (prepare_data lib model_meta models neural_csv).2 = Ok rows →
  r ∈ rows →
  let name := model (neural (scores r)) in
  name ∈ models
  ∧ neural (scores r) ∈ data
  ∧ i2n (scores r) = default NaN (model_behavior model_meta !! name)
  ∧ (∃ top, model_performance model_meta !! name = Some top
            ∧ performance (scores r) = float_mul (Fin 100) top)
  ∧ ∃ meta, meta ∈ model_meta ∧ meta_model meta = name
            ∧ link r = meta_link meta ∧ bibtex r = meta_bibtex meta.
Proof.
  intros Hparse Hrows Hr. unfold prepare_data in Hrows. rewrite Hparse in Hrows.
  cbn [snd] in Hrows.
  apply score_table_Ok in Hrows as (_ & _ & perf & Hperf & -> & _). cbn zeta.
  apply elem_of_merge_meta in Hr as ([s rk] & meta & Hs & Hin & Hmeta & ->).
  cbn [scores fst snd link bibtex] in *.
  apply elem_of_zip_l, list_elem_of_filter in Hs as [Hmodels Hs].
  unfold scored in Hs. apply list_elem_of_fmap in Hs as ([n p] & -> & Hs).
  cbn [neural i2n performance] in *.
  apply elem_of_lookup_zip_with in Hs as (i & n' & p' & [= <- <-] & Hn & Hp).
  split; [done |]. split; [by eapply list_elem_of_lookup_2 |]. split; [done |]. split.
  - eapply performance_values_lookup; [exact Hperf | | exact Hp].
    by rewrite list_lookup_fmap, Hn.
  - by exists meta.
Qed.

(** The product is rounded: for [squeezenet] it is 57.49999999999999, not
    57.5. *)
Example performance_of_squeezenet :
  float_mul (Fin 100) (float_literal 0.575) = float_literal 57.49999999999999
  ∧ float_mul (Fin 100) (float_literal 0.575) ≠ Fin 57.5
  ∧ float_mul (Fin 100) (float_sub (Fin 1) (float_literal 0.4233)) = float_literal 57.67.
Proof. split; [reflexivity | split; [by vm_compute | reflexivity]]. Qed.

Lemma prepare_data_rows_witness :
  ∃ r rows,
    (prepare_data example_lib example_meta ["resnet-18"; "alexnet"] None).2 = Ok rows
    ∧ rows !! 0%nat = Some r
    ∧ model (neural (scores r)) = "resnet-18"
    ∧ i2n (scores r) = default NaN (model_behavior example_meta !! "resnet-18")
    ∧ link r = Some "https://arxiv.org/abs/1512.03385".
Proof.
  eexists _, _. split; [vm_compute; reflexivity |]. split; [reflexivity |].
  split; [reflexivity |].
  lazymatch goal with
  | |- i2n (scores ?r) = _ ∧ _ =>
      destruct (prepare_data_rows example_lib example_meta ["resnet-18"; "alexnet"] None _ _ _ r
                  eq_refl eq_refl (list_elem_of_here _ _))
        as (_ & _ & Hi2n & _ & _)
  end.
  split; [exact Hi2n | reflexivity].
Defined.

Lemma merge_rows_names (model_meta : list meta_row) (r : score_row * float) :
  (fun r => model (neural (scores r))) <$> merge_rows model_meta r
  = replicate (meta_count model_meta (model (neural r.1))) (model (neural r.1)).
Proof.
  unfold merge_rows, meta_count.
  induction (filter (fun meta => meta_model meta = model (neural r.1)) model_meta)
    as [|meta metas IH]; [done |].
  cbn. cbn in IH. by rewrite IH.
Qed.

Lemma group_names (model_meta : list meta_row) (key : string)
    (ranked : list (score_row * float)) :
  (fun r => model (neural (scores r)))
    <$> (filter (fun r => model (neural r.1) = key) ranked ≫= merge_rows model_meta)
  = replicate (length (filter (fun k => k = key) ((fun r => model (neural r.1)) <$> ranked))
               * meta_count model_meta key) key.
Proof.
  induction ranked as [|r ranked IH]; [done |].
  cbn [fmap list_fmap]. rewrite !filter_cons.
  destruct (decide (model (neural r.1) = key)) as [Hkey | Hkey]; [| exact IH].
  cbn [mbind list_bind length]. rewrite fmap_app, merge_rows_names, Hkey.
  change (S ?n * ?c)%nat with (c + n * c)%nat. rewrite replicate_add. f_equal. exact IH.
Qed.

Lemma merge_meta_names (model_meta : list meta_row) (ranked : list (score_row * float)) :
  let keys := (fun r => model (neural r.1)) <$> ranked in
  (fun r => model (neural (scores r))) <$> merge_meta ranked model_meta
  = factorize keys ≫= fun key =>
      replicate (length (filter (fun k => k = key) keys) * meta_count model_meta key) key.
Proof.
  cbn zeta. unfold merge_meta.
  induction (factorize ((fun r => model (neural r.1)) <$> ranked)) as [|key keys IH]; [done |].
  cbn [mbind list_bind]. by rewrite fmap_app, group_names, IH.
Qed.

Lemma kept_names (model_meta : list meta_row) (models : list string) (data : list neural_row) :
  ∀ perf,
    length perf = length data →
    (fun s => model (neural s))
      <$> filter (fun s => model (neural s) ∈ models) (scored model_meta data perf)
    = filter (fun name => name ∈ models) (model <$> data).
Proof.
  unfold scored. induction data as [|n data IH]; intros [|p perf] Hlen; try done.
  cbn [zip zip_with fmap list_fmap]. rewrite !filter_cons. cbn [neural].
  injection Hlen as Hlen. specialize (IH perf Hlen).
  destruct (decide (model n ∈ models)); [| done].
  cbn [fmap list_fmap neural]. by rewrite <- IH.
Qed.

(** The table that [prepare_data] returns, model by model.  The join goes
    through the models of the table that are in the model list, in the order
    in which they first occur there, and has each of them as often as the
    table has it times as often as [models.csv] lists it (so not at all when
    [models.csv] does not list it): the rows of a model that the table has
    twice end up next to each other. *)
Theorem prepare_data_models (lib : library) (model_meta : list meta_row)
    (models : list string) (neural_csv neural_csv' : option (list neural_row))
    (data : list neural_row) (rows : list row) :
  parse_neural_data (neural_fit lib) neural_csv models = Ok (data, neural_csv') →
  (prepare_data lib model_meta models neural_csv).2 = Ok rows →
  let kept := filter (fun name => name ∈ models) (model <$> data) in
  (fun r => model (neural (scores r))) <$> rows
  = factorize kept ≫= fun name =>
      replicate (length (filter (fun k => k = name) kept)
                 * length (filter (fun meta => meta_model meta = name) model_meta)) name.
Proof.
  intros Hparse Hrows. unfold prepare_data in Hrows. rewrite Hparse in Hrows.
  cbn [snd] in Hrows.
  apply score_table_Ok in Hrows as (_ & _ & perf & Hperf & -> & _).
  assert (length perf = length data) as Hlen.
  { unfold performance_values in Hperf. apply for_each_Ok, Forall2_length in Hperf.
    by rewrite length_fmap in Hperf. }
  set (kept := filter (fun s => model (neural s) ∈ models) (scored model_meta data perf)).
  assert ((fun r : score_row * float => model (neural r.1))
            <$> zip kept (rank_descending (global <$> kept))
          = filter (fun name => name ∈ models) (model <$> data)) as Hkeys.
  { rewrite <- (kept_names model_meta models data perf Hlen). fold kept.
    trans ((fun s => model (neural s)) <$> (zip kept (rank_descending (global <$> kept))).*1).
    - by rewrite <- list_fmap_compose.
    - rewrite fst_zip; [done |]. unfold rank_descending. by rewrite !length_fmap. }
  pose proof (merge_meta_names model_meta (zip kept (rank_descending (global <$> kept))))
    as Hnames.
  cbn zeta in Hnames. by rewrite Hkeys in Hnames.
Qed.

Lemma prepare_data_models_witness :
  ∃ rows,
    (prepare_data example_lib example_meta ["resnet-18"; "alexnet"] (Some alexnet_twice)).2
    = Ok rows
    ∧ (fun r => model (neural (scores r))) <$> rows = ["alexnet"; "alexnet"; "resnet-18"].
Proof.
  eexists. split; [vm_compute; reflexivity |].
  etrans.
  - apply (prepare_data_models example_lib example_meta ["resnet-18"; "alexnet"]
             (Some alexnet_twice) (Some alexnet_twice) alexnet_twice);
      reflexivity.
  - reflexivity.
Defined.

(** ** [prepare_data]: the range of the ranks *)

Lemma above_tied_length (x : float) (series : list float) :
  above x series + tied x series ≤ length series.
Proof.
  unfold above, tied. induction series as [|y series IH]; [done |].
  rewrite !filter_cons. pose proof (float_gt_not_eqb y x).
  repeat case_decide; cbn [length]; try lia. tauto.
Qed.

Lemma half_rank_bounds (z n : nat) :
  2 ≤ z → z ≤ 2 * n →
  (1 <= Qred (inject_Z (Z.of_nat z) / 2))%Q
  ∧ (Qred (inject_Z (Z.of_nat z) / 2) <= inject_Z (Z.of_nat n))%Q.
Proof.
  intros Hlow Hhigh. rewrite !Qred_correct. split.
  - apply Qle_shift_div_l; [done |]. change (1 * 2)%Q with (inject_Z 2).
    rewrite <- Zle_Qle. lia.
  - apply Qle_shift_div_r; [done |]. change 2%Q with (inject_Z 2).
    rewrite <- inject_Z_mult, <- Zle_Qle. lia.
Qed.

Lemma rank_descending_bounds (series : list float) (i : nat) (a : Q) :
  series !! i = Some (Fin a) →
  ∃ q, rank_descending series !! i = Some (Fin q)
       ∧ (1 <= q)%Q ∧ (q <= inject_Z (Z.of_nat (length series)))%Q.
Proof.
  intros Hi. eexists. split; [by apply rank_descending_lookup |].
  pose proof (above_tied_length (Fin a) series).
  pose proof (tied_positive a series (list_elem_of_lookup_2 _ _ _ Hi)).
  apply half_rank_bounds; lia.
Qed.

Lemma kept_length (model_meta : list meta_row) (models : list string)
    (data : list neural_row) :
  ∀ perf,
    length perf = length data →
    length (filter (fun s => model (neural s) ∈ models) (scored model_meta data perf))
    = length (filter (fun n => model n ∈ models) data).
Proof.
  unfold scored. induction data as [|n data IH]; intros [|p perf] Hlen; try done.
  cbn [zip zip_with fmap list_fmap]. rewrite !filter_cons. cbn [neural].
  injection Hlen as Hlen. specialize (IH perf Hlen).
  destruct (decide (model n ∈ models)); cbn [length]; by rewrite IH.
Qed.

(** The rank of a returned row is taken among the rows of the table whose
    model is in the model list, before the join with [models.csv]: a row
    with a behavioral score has a rank between 1 and the number of those
    rows, and a row without one (NaN in ['i2n']) has NaN as its rank. *)
Theorem prepare_data_ranks (lib : library) (model_meta : list meta_row)
    (models : list string) (neural_csv neural_csv' : option (list neural_row))
    (data : list neural_row) (rows : list row) (r : row) :
  parse_neural_data (neural_fit lib) neural_csv models = Ok (data, neural_csv') →
  (prepare_data lib model_meta models neural_csv).2 = Ok rows →
  r ∈ rows →
  match i2n (scores r) with
  | NaN => rank r = NaN
  | Fin _ =>
      ∃ q, rank r = Fin q
           ∧ (1 <= q)%Q
           ∧ (q <= inject_Z (Z.of_nat (length (filter (fun n => model n ∈ models) data))))%Q
  end.
Proof.
  intros Hparse Hrows Hr. unfold prepare_data in Hrows. rewrite Hparse in Hrows.
  cbn [snd] in Hrows.
  apply score_table_Ok in Hrows as (_ & _ & perf & Hperf & -> & _).
  assert (length perf = length data) as Hlen.
  { unfold performance_values in Hperf. apply for_each_Ok, Forall2_length in Hperf.
    by rewrite length_fmap in Hperf. }
  apply elem_of_merge_meta in Hr as ([s rk] & meta & Hs & _ & _ & ->).
  cbn [scores rank fst snd].
  apply elem_of_lookup_zip_with in Hs as (i & s' & rk' & [= <- <-] & Hs & Hrk).
  assert (global s = np_mean [i2n s]) as Hglobal.
  { apply list_elem_of_lookup_2, list_elem_of_filter in Hs as [_ Hs].
    unfold scored in Hs. by apply list_elem_of_fmap in Hs as ([n p] & -> & _). }
  assert ((global <$> filter (fun s => model (neural s) ∈ models) (scored model_meta data perf))
          !! i = Some (np_mean [i2n s])) as Hi.
  { by rewrite list_lookup_fmap, Hs, <- Hglobal. }
  destruct (i2n s) as [|b].
  - unfold rank_descending in Hrk. rewrite list_lookup_fmap, Hi in Hrk. by injection Hrk as <-.
  - destruct (rank_descending_bounds _ _ _ Hi) as (q & Hq & Hlow & Hhigh).
    rewrite Hq in Hrk. injection Hrk as <-. exists q. split; [done |]. split; [done |].
    by rewrite length_fmap, kept_length in Hhigh.
Qed.

Lemma prepare_data_ranks_witness :
  ∃ r rows,
    (prepare_data example_lib example_meta ["resnet-18"; "alexnet"] None).2 = Ok rows
    ∧ rows !! 1%nat = Some r
    ∧ ∃ q, rank r = Fin q ∧ (1 <= q)%Q ∧ (q <= inject_Z 2)%Q.
Proof.
  eexists _, _. split; [vm_compute; reflexivity |]. split; [reflexivity |].
  lazymatch goal with
  | |- ∃ q, rank ?r = _ ∧ _ =>
      apply (prepare_data_ranks example_lib example_meta ["resnet-18"; "alexnet"] None
               (Some [NeuralRow "resnet-18" (Fin 0.6) (Fin 0.01) (Fin 0.5) (Fin 0.02);
                      saved_alexnet])
               [NeuralRow "resnet-18" (Fin 0.6) (Fin 0.01) (Fin 0.5) (Fin 0.02); saved_alexnet]
               _ r eq_refl eq_refl)
  end.
  right. left.
Defined.

(** ** [_create_fixture] *)

Lemma authors_of_Ok (entry : Entry) (authors : string) :
  authors_of entry = Ok authors
  ↔ ∃ author others,
      OrderedDict.get (persons entry) "author" = Some (author :: others)
      ∧ authors = str_join " " (last author) +:+ " et al.".
Proof.
  unfold authors_of, getitem.
  destruct (OrderedDict.get (persons entry) "author") as [[|author others]|]; simpl.
  - split; [done | by intros (? & ? & ? & _)].
  - split; [intros [= <-]; by eexists _, _ | by intros (? & ? & [= <- _] & ->)].
  - split; [done | by intros (? & ? & ? & _)].
Qed.

Lemma getitem_Ok {V : Type} (d : OrderedDict.t V) (key : string) (v : V) :
  getitem d key = Ok v ↔ OrderedDict.get d key = Some v.
Proof. unfold getitem. destruct (OrderedDict.get d key); split; congruence. Qed.

Lemma identifier_join (authors year : string) :
  str_join ", " [authors +:+ " et al."; year] = authors +:+ " et al., " +:+ year.
Proof.
  cbn [str_join]. rewrite append_assoc. f_equal.
Qed.

Lemma fixture_rows_cited (parse : string → result (OrderedDict.t Entry)) (complete : list row) :
  ∀ fixture,
    (∃ bibs authors years,
       Forall2 (fun r bib => parse_bib parse (default "" (bibtex r)) = Ok bib) complete bibs
       ∧ Forall2 (fun bib a => authors_of bib = Ok a) bibs authors
       ∧ Forall2 (fun bib y => getitem (fields bib) "year" = Ok y) bibs years
       ∧ fixture
         = (fun '(r, id) => fixture_of r id)
             <$> zip complete (zip_with (fun a y => str_join ", " [a; y]) authors years))
    ↔ Forall2 (cited parse) complete fixture.
Proof.
  induction complete as [|r complete IH]; intros fixture.
  - split.
    + intros (bibs & authors & years & Hbibs & _ & _ & ->). constructor.
    + intros ->%Forall2_nil_inv_l. exists [], [], []. by repeat split; try constructor.
  - split.
    + intros (bibs & authors & years & Hbibs & Hauthors & Hyears & ->).
      apply Forall2_cons_inv_l in Hbibs as (bib & bibs' & Hbib & Hbibs & ->).
      apply Forall2_cons_inv_l in Hauthors as (a & authors' & Ha & Hauthors & ->).
      apply Forall2_cons_inv_l in Hyears as (y & years' & Hy & Hyears & ->).
      cbn [zip zip_with fmap list_fmap]. constructor.
      * apply authors_of_Ok in Ha as (author & others & Hauthor & ->).
        apply getitem_Ok in Hy. exists bib, author, others, y.
        by rewrite identifier_join.
      * apply IH. by exists bibs', authors', years'.
    + intros Hcited. apply Forall2_cons_inv_l in Hcited as (f & fixture' & Hf & Hrest & ->).
      apply IH in Hrest as (bibs & authors & years & Hbibs & Hauthors & Hyears & ->).
      destruct Hf as (entry & author & others & year & Hentry & Hauthor & Hyear & ->).
      exists (entry :: bibs), ((str_join " " (last author) +:+ " et al.") :: authors),
        (year :: years).
      split; [by constructor |]. split; [| split].
      * constructor; [| done]. apply authors_of_Ok. by exists author, others.
      * constructor; [| done]. by apply getitem_Ok.
      * cbn [zip zip_with fmap list_fmap]. by rewrite identifier_join.
Qed.

Lemma _create_fixture_cited (parse : string → result (OrderedDict.t Entry))
    (data : list row) (fixture : list fixture_fields) :
  _create_fixture parse data = Ok fixture
  ↔ filter (fun r => has_nan r = false) data ≠ []
    ∧ Forall2 (cited parse) (filter (fun r => has_nan r = false) data) fixture.
Proof.
  rewrite <- fixture_rows_cited. unfold _create_fixture. cbn zeta. split.
  - intros (bibs & Hbibs%for_each_Ok & (authors & Hauthors%for_each_Ok
      & (years & Hyears%for_each_Ok & (identifier & Hid & [= <-])%bind_Ok)%bind_Ok)%bind_Ok)%bind_Ok.
    unfold set_column_apply in Hid.
    destruct authors as [|a authors]; [done |]. injection Hid as <-. split.
    + intros Hnil. rewrite Hnil in Hbibs. apply Forall2_nil_inv_l in Hbibs as ->.
      by apply Forall2_nil_inv_l in Hauthors.
    + by exists bibs, (a :: authors), years.
  - intros (Hne & bibs & authors & years & Hbibs%for_each_Ok & Hauthors%for_each_Ok
      & Hyears%for_each_Ok & ->).
    rewrite Hbibs, bind_Ok_l, Hauthors, bind_Ok_l, Hyears, bind_Ok_l.
    unfold set_column_apply. destruct authors as [|a authors]; [| done].
    apply for_each_Ok in Hauthors, Hbibs.
    apply Forall2_nil_inv_r in Hauthors as ->. by apply Forall2_nil_inv_r in Hbibs.
Qed.

Lemma _create_fixture_no_rows (parse : string → result (OrderedDict.t Entry))
    (data : list row) :
  filter (fun r => has_nan r = false) data = [] →
  _create_fixture parse data = Raise (frame_to_column "identifier").
Proof. intros Hnil. unfold _create_fixture. by rewrite Hnil. Qed.

(** [fixture.json] has one record per row without a missing value, in the
    order of the table.  The record repeats the scores of the row, and its
    identifier is made of the last names of the first author of the row's
    BibTeX entry, [et al.] (also for a single author) and the year. *)
Theorem _create_fixture_records (parse : string → result (OrderedDict.t Entry))
    (data : list row) (fixture : list fixture_fields) :
  _create_fixture parse data = Ok fixture →
  length fixture = length (filter (fun r => has_nan r = false) data)
  ∧ ∀ i r f,
      filter (fun r => has_nan r = false) data !! i = Some r →
      fixture !! i = Some f →
      name f = model (neural (scores r))
      ∧ brain_score f = global (scores r)
      ∧ imagenet_top1 f = performance (scores r)
      ∧ fixture_v4 f = v4 (neural (scores r))
      ∧ fixture_it f = it (neural (scores r))
      ∧ behavior f = i2n (scores r)
      ∧ link r = Some (paper_link f)
      ∧ ∃ bibtex_str entry author others year,
          bibtex r = Some bibtex_str
          ∧ parse_bib parse bibtex_str = Ok entry
          ∧ OrderedDict.get (persons entry) "author" = Some (author :: others)
          ∧ OrderedDict.get (fields entry) "year" = Some year
          ∧ paper_identifier f = str_join " " (last author) +:+ " et al., " +:+ year.
Proof.
  intros Hcited. apply _create_fixture_cited in Hcited as [_ Hcited].
  split; [symmetry; by eapply Forall2_length |].
  intros i r f Hr Hf.
  pose proof (Forall2_lookup_lr _ _ _ _ _ _ Hcited Hr Hf)
    as (entry & author & others & year & Hentry & Hauthor & Hyear & ->).
  apply list_elem_of_lookup_2, list_elem_of_filter in Hr as [Hcomplete _].
  unfold has_nan in Hcomplete. repeat (apply orb_false_iff in Hcomplete as [Hcomplete ?]).
  destruct (link r) as [url|] eqn:Hlink; [| done].
  destruct (bibtex r) as [bibtex_str|] eqn:Hbibtex; [| done].
  cbn. rewrite Hlink. repeat split; try done.
  by exists bibtex_str, entry, author, others, year.
Qed.

(** Rows with a missing value are dropped before anything is parsed.  When
    no row is left, [_create_fixture] raises the [ValueError] of the
    assignment to ['identifier'].  It ends without an exception exactly when
    some row is left and the BibTeX string of every row left parses to one
    entry that has a first author and a year. *)
Theorem _create_fixture_succeeds (parse : string → result (OrderedDict.t Entry))
    (data : list row) :
  (Forall (fun r => has_nan r = true) data →
   _create_fixture parse data = Raise (frame_to_column "identifier"))
  ∧ ((∃ fixture, _create_fixture parse data = Ok fixture)
     ↔ (∃ r, r ∈ data ∧ has_nan r = false)
       ∧ ∀ r, r ∈ data → has_nan r = false →
              ∃ entry author others year,
                parse_bib parse (default "" (bibtex r)) = Ok entry
                ∧ OrderedDict.get (persons entry) "author" = Some (author :: others)
                ∧ OrderedDict.get (fields entry) "year" = Some year).
Proof.
  split.
  - intros Hall. apply _create_fixture_no_rows, filter_none.
    eapply Forall_impl; [exact Hall |]. intros r Hr. by rewrite Hr.
  - setoid_rewrite _create_fixture_cited. split.
    + intros (fixture & Hne & Hcited). split.
      * destruct (filter (fun r => has_nan r = false) data) as [|r complete] eqn:Hfilter;
          [done |].
        assert (r ∈ filter (fun r => has_nan r = false) data) as [Hcomplete Hr]%list_elem_of_filter
          by (rewrite Hfilter; left).
        by exists r.
      * intros r Hr Hcomplete.
        assert (r ∈ filter (fun r => has_nan r = false) data) as [i Hi]%list_elem_of_lookup_1
          by (by apply list_elem_of_filter).
        destruct (Forall2_lookup_l _ _ _ _ _ Hcited Hi)
          as (f & _ & entry & author & others & year & ? & ? & ? & _).
        by exists entry, author, others, year.
    + intros [(r0 & Hr0 & Hcomplete0) Hall].
      assert (filter (fun r => has_nan r = false) data ≠ []) as Hne.
      { intros Hnil. assert (r0 ∈ filter (fun r => has_nan r = false) data) as Hin
          by (by apply list_elem_of_filter).
        rewrite Hnil in Hin. by apply not_elem_of_nil in Hin. }
      assert (Forall (fun r => ∃ f, cited parse r f) (filter (fun r => has_nan r = false) data))
        as Hcited.
      { apply Forall_forall. intros r [Hcomplete Hr]%list_elem_of_filter.
        destruct (Hall r Hr Hcomplete) as (entry & author & others & year & ? & ? & ?).
        eexists. by exists entry, author, others, year. }
      clear Hr0 Hcomplete0 Hall.
      induction Hcited as [|r complete [f Hf] _ IH]; [done |].
      destruct complete as [|r' complete].
      * exists [f]. split; [done |]. by repeat constructor.
      * destruct IH as (fixture & _ & Hfixture); [done |].
        exists (f :: fixture). split; [done |]. by constructor.
Qed.

Example _create_fixture_alexnet :
  paper_identifier <$> default [] (match _create_fixture example_parse [alexnet_row] with
                                   | Ok fixture => Some fixture
                                   | Raise _ => None
                                   end)
  = ["Krizhevsky et al., 2012"].
Proof. reflexivity. Qed.

Lemma _create_fixture_records_witness :
  ∃ fixture,
    _create_fixture example_parse [alexnet_row] = Ok fixture
    ∧ length fixture = length (filter (fun r => has_nan r = false) [alexnet_row]).
Proof.
  eexists. split; [reflexivity |].
  apply (_create_fixture_records example_parse [alexnet_row]). reflexivity.
Defined.

Lemma _create_fixture_succeeds_witness :
  _create_fixture example_parse
    [Row (ScoreRow saved_alexnet NaN (Fin 57) NaN) NaN None (Some "not BibTeX")]
  = Raise (frame_to_column "identifier")
  ∧ ∃ fixture,
      _create_fixture example_parse
        [Row (ScoreRow saved_alexnet NaN (Fin 57) NaN) NaN None (Some "not BibTeX");
         alexnet_row]
      = Ok fixture.
Proof.
  split.
  - apply (proj1 (_create_fixture_succeeds example_parse
                    [Row (ScoreRow saved_alexnet NaN (Fin 57) NaN) NaN None
                       (Some "not BibTeX")])).
    by repeat constructor.
  - apply (proj2 (proj2 (_create_fixture_succeeds example_parse
                           [Row (ScoreRow saved_alexnet NaN (Fin 57) NaN) NaN None
                              (Some "not BibTeX"); alexnet_row]))).
    split.
    + exists alexnet_row. split; [right; left | reflexivity].
    + intros r [-> | ->%list_elem_of_singleton]%elem_of_cons; [discriminate |].
      intros _. exists example_entry, {| last := ["Krizhevsky"] |},
                  [{| last := ["Sutskever"] |}], "2012". by repeat split.
Defined.

(** In every record that [prepare_data] writes to [fixture.json] the
    [brain_score] is the [behavior] score. *)
Theorem prepare_data_fixture_scores (lib : library) (model_meta : list meta_row)
    (models : list string) (neural_csv : option (list neural_row)) (rows : list row) :
  (prepare_data lib model_meta models neural_csv).2 = Ok rows →
  ∃ fixture,
    _create_fixture (parse_string lib) rows = Ok fixture
    ∧ Forall (fun f => float_same (brain_score f) (behavior f) ∧ isnan (behavior f) = false)
             fixture.
Proof.
  unfold prepare_data.
  destruct (parse_neural_data (neural_fit lib) neural_csv models) as [[data csv'] | e];
    [| done].
  cbn [snd]. intros Hrows.
  pose proof (score_table_global _ _ _ _ _ Hrows) as Hglobal.
  apply score_table_Ok in Hrows as (_ & _ & perf & _ & _ & [fixture Hfixture] & _).
  exists fixture. split; [done |].
  pose proof (proj1 (_create_fixture_cited _ _ _) Hfixture) as [_ Hcited].
  apply Forall_lookup. intros i f Hf.
  destruct (Forall2_lookup_r _ _ _ _ _ Hcited Hf)
    as (r & Hr & entry & author & others & year & _ & _ & _ & ->).
  cbn [fixture_of brain_score behavior].
  apply list_elem_of_lookup_2, list_elem_of_filter in Hr as [Hcomplete Hr].
  split; [by apply Hglobal |].
  unfold has_nan in Hcomplete. repeat (apply orb_false_iff in Hcomplete as [Hcomplete ?]).
  done.
Qed.

Lemma prepare_data_fixture_scores_witness :
  ∃ fixture,
    _create_fixture (parse_string example_lib) [alexnet_row] = Ok fixture
    ∧ Forall (fun f => float_same (brain_score f) (behavior f) ∧ isnan (behavior f) = false)
             fixture.
Proof.
  apply (prepare_data_fixture_scores example_lib example_meta ["alexnet"] None).
  vm_compute. reflexivity.
Defined.

(** ** [prepare_data]: no complete row *)

Lemma performance_values_total (perf_dict : gmap string float) (names : list string) :
  Forall (fun name => is_Some (perf_dict !! name)) names →
  ∃ perf, performance_values perf_dict names = Ok perf ∧ length perf = length names.
Proof.
  induction 1 as [|name names [v Hv] _ (perf & Hperf & Hlen)]; [by exists [] |].
  exists (float_mul (Fin 100) v :: perf). unfold performance_values in *.
  cbn [for_each]. rewrite Hv, bind_Ok_l, Hperf. split; [done |]. cbn. by rewrite Hlen.
Qed.

Lemma first_where_total (f : string → float) (keys : list string) (key : string) :
  key ∈ keys → first_where keys (f <$> keys) key = Ok (f key).
Proof.
  intros Hin.
  destruct (first_where keys (f <$> keys) key) as [v | e] eqn:Hfirst.
  - by apply first_where_fmap in Hfirst as ->.
  - exfalso. unfold first_where in Hfirst.
    destruct (filter (fun kv : string * float => kv.1 = key) (zip keys (f <$> keys)))
      as [|kv rest] eqn:Hfilter; [| done].
    apply list_elem_of_lookup_1 in Hin as [i Hi].
    assert ((key, f key) ∈ filter (fun kv : string * float => kv.1 = key)
                             (zip keys (f <$> keys))) as Hkv.
    { apply list_elem_of_filter. split; [done |].
      apply (list_elem_of_lookup_2 _ i), lookup_zip_with_Some.
      exists key, (f key). by rewrite list_lookup_fmap, Hi. }
    rewrite Hfilter in Hkv. by apply not_elem_of_nil in Hkv.
Qed.

Lemma global_scores_total (f : string → float) (names : list string) :
  global_scores names (f <$> names) = Ok ((fun name => [f name]) <$> names).
Proof.
  unfold global_scores. apply for_each_Ok, Forall2_fmap_r, Forall_Forall2_diag, Forall_forall.
  intros name Hname. by rewrite (first_where_total f names name Hname).
Qed.

(** When no model of the model list has a behavioral score, every row of
    the joined table has a missing value, [_create_fixture] is left with no
    row, and [prepare_data] ends with the [ValueError] of the assignment to
    ['identifier']: nothing is returned and [data.tex] is not written. *)
Theorem prepare_data_no_complete_row (lib : library) (model_meta : list meta_row)
    (models : list string) (neural_csv neural_csv' : option (list neural_row))
    (data : list neural_row) :
  parse_neural_data (neural_fit lib) neural_csv models = Ok (data, neural_csv') →
  data ≠ [] →
  "cornet" ∉ (model <$> data) →
  Forall (fun name => is_Some (model_performance model_meta !! name)) (model <$> data) →
  (∀ name, name ∈ models →
           isnan (default NaN (model_behavior model_meta !! name)) = true) →
  prepare_data lib model_meta models neural_csv
  = (neural_csv', Raise (frame_to_column "identifier")).
Proof.
  intros Hparse Hdata Hcornet Hperf Hbehavior.
  unfold prepare_data. rewrite Hparse. f_equal. unfold score_table.
  rewrite (i2n_column_no_cornet _ data Hcornet), bind_Ok_l.
  destruct (performance_values_total _ _ Hperf) as (perf & -> & Hlen).
  rewrite bind_Ok_l, snd_zip by (by rewrite length_fmap).
  assert ((fun r => default NaN (model_behavior model_meta !! model r)) <$> data
          = (fun name => default NaN (model_behavior model_meta !! name)) <$> (model <$> data))
    as Hcol by (by rewrite <- list_fmap_compose).
  rewrite Hcol at 1. rewrite global_scores_total, bind_Ok_l.
  assert (np_mean_axis1
            ((fun name => [default NaN (model_behavior model_meta !! name)]) <$> (model <$> data))
          = Ok ((fun r => np_mean [default NaN (model_behavior model_meta !! model r)]) <$> data))
    as ->.
  { destruct data as [|n data]; [by destruct Hdata |].
    rewrite <- list_fmap_compose. cbn [fmap list_fmap np_mean_axis1]. do 2 f_equal.
    by rewrite <- list_fmap_compose. }
  rewrite bind_Ok_l, zip3_scored.
  rewrite _create_fixture_no_rows; [done |].
  apply filter_none, Forall_forall.
  intros r ([s rk] & meta & Hs & _ & _ & ->)%elem_of_merge_meta.
  apply elem_of_zip_l, list_elem_of_filter in Hs as [Hmodels Hs].
  unfold scored in Hs. apply list_elem_of_fmap in Hs as ([n p] & -> & _).
  cbn [neural] in Hmodels. unfold has_nan. cbn [scores i2n fst].
  rewrite (Hbehavior _ Hmodels). by rewrite !orb_true_r.
Qed.

Lemma prepare_data_no_complete_row_witness :
  prepare_data example_lib
    [MetaRow "vgg-16" (float_literal 0.715) NaN (Some "https://arxiv.org/abs/1409.1556")
       (Some "@article{krizhevsky2012, ...}")]
    ["vgg-16"] None
  = (Some [NeuralRow "vgg-16" (Fin 0.6) (Fin 0.01) (Fin 0.5) (Fin 0.02)],
     Raise (frame_to_column "identifier")).
Proof.
  apply (prepare_data_no_complete_row example_lib
           [MetaRow "vgg-16" (float_literal 0.715) NaN (Some "https://arxiv.org/abs/1409.1556")
              (Some "@article{krizhevsky2012, ...}")]
           ["vgg-16"] None
           (Some [NeuralRow "vgg-16" (Fin 0.6) (Fin 0.01) (Fin 0.5) (Fin 0.02)])
           [NeuralRow "vgg-16" (Fin 0.6) (Fin 0.01) (Fin 0.5) (Fin 0.02)]).
  - reflexivity.
  - done.
  - by intros [[=] | []%not_elem_of_nil]%elem_of_cons.
  - repeat constructor. by eexists.
  - by intros name ->%list_elem_of_singleton.
Defined.

(** ** The ['convex'] fit as an envelope *)

Lemma float_gt_irrefl (y : float) : float_gt y y = false.
Proof.
  destruct y as [|q]; [done |]. simpl. apply negb_false_iff, Qle_bool_iff, Qle_refl.
Qed.

Lemma convex_loop_length (points : list (float * float)) :
  ∀ curr, length (convex_loop curr points) = length points.
Proof.
  induction points as [|p points IH]; intros curr; [done |].
  cbn [convex_loop length]. by rewrite IH.
Qed.

Lemma convex_step_spec (curr point : float * float) :
  float_gt point.2 (convex_step curr point).2 = false
  ∧ ((convex_step curr point).2 = point.2
     ∨ ((convex_step curr point).2 = curr.2 ∧ float_ne point.1 curr.1 = false)).
Proof.
  destruct curr as [cx cy], point as [x y]. unfold convex_step. cbn [fst snd].
  destruct (float_ne x cx); cbn [snd]; [split; [apply float_gt_irrefl | by left] |].
  destruct (float_gt y cy) eqn:Hgt; cbn [snd].
  - split; [apply float_gt_irrefl | by left].
  - split; [done | by right].
Qed.

Lemma convex_loop_spec (points : list (float * float)) :
  ∀ curr i point fitted,
    points !! i = Some point →
    convex_loop curr points !! i = Some fitted →
    float_gt point.2 fitted = false
    ∧ (fitted = curr.2
       ∨ ∃ j earlier, j ≤ i ∧ points !! j = Some earlier ∧ earlier.2 = fitted).
Proof.
  induction points as [|p points IH]; intros curr i point fitted; [done |].
  cbn [convex_loop]. destruct (convex_step_spec curr p) as [Hbelow Hstep].
  destruct i as [|i]; cbn [lookup list_lookup].
  - intros [= <-] [= <-]. split; [done |].
    destruct Hstep as [Hp | [Hc _]]; [right; by exists 0%nat, p | by left].
  - intros Hpoint Hfitted. destruct (IH _ _ _ _ Hpoint Hfitted) as [Hgt Hfrom].
    split; [done |]. destruct Hfrom as [-> | (j & earlier & Hj & Hearlier & <-)].
    + destruct Hstep as [Hp | [Hc _]]; [right; exists 0%nat, p; split; [lia | done] | by left].
    + right. exists (S j), earlier. split; [lia | done].
Qed.

(** The fitted line has one value per point and never runs below a point:
    no point's [y] is greater than the value fitted at it.  Every fitted
    value is the [y] of that point or of a point before it, or the initial
    [-99999], which can only show when the first [x] is 0. *)
Theorem convex_fit_envelope (x y : list float) :
  length (convex_fit x y) = length x `min` length y
  ∧ (∀ i yi fitted,
       y !! i = Some yi → convex_fit x y !! i = Some fitted →
       float_gt yi fitted = false
       ∧ (fitted = Fin (-99999) ∨ ∃ j, j ≤ i ∧ y !! j = Some fitted))
  ∧ (∀ x0 i fitted,
       x !! 0%nat = Some x0 → float_ne x0 (Fin 0) = true →
       convex_fit x y !! i = Some fitted →
       ∃ j, j ≤ i ∧ y !! j = Some fitted).
Proof.
  unfold convex_fit. split; [by rewrite convex_loop_length, length_zip |].
  assert (∀ i fitted, convex_loop (Fin 0, Fin (-99999)) (zip x y) !! i = Some fitted →
                      ∃ xi yi, x !! i = Some xi ∧ y !! i = Some yi
                               ∧ zip x y !! i = Some (xi, yi)) as Hpoint.
  { intros i fitted Hfitted. apply lookup_lt_Some in Hfitted.
    rewrite convex_loop_length in Hfitted.
    destruct (lookup_lt_is_Some_2 _ _ Hfitted) as [[xi yi] Hi].
    exists xi, yi.
    by destruct (proj1 (lookup_zip_with_Some _ _ _ _ _) Hi) as (? & ? & [= <- <-] & ? & ?). }
  split.
  - intros i yi fitted Hyi Hfitted.
    destruct (Hpoint i fitted Hfitted) as (xi & yi' & _ & Hyi' & Hi).
    assert (yi' = yi) as -> by congruence.
    destruct (convex_loop_spec _ _ _ _ _ Hi Hfitted) as [Hgt Hfrom].
    split; [done |]. destruct Hfrom as [-> | (j & [xj yj] & Hj & Hearlier & <-)]; [by left |].
    right. exists j. split; [done |].
    by apply lookup_zip_with_Some in Hearlier as (? & ? & [= <- <-] & _ & ?).
  - intros x0 i fitted Hx0 Hne Hfitted.
    destruct (Hpoint i fitted Hfitted) as (xi & yi & _ & _ & Hi).
    destruct x as [|x0' x]; [done |]. injection Hx0 as ->.
    destruct y as [|y0 y]; [done |].
    cbn [zip zip_with convex_loop convex_step] in Hfitted, Hi. rewrite Hne in Hfitted.
    cbn [snd] in Hfitted. destruct i as [|i].
    + injection Hfitted as <-. by exists 0%nat.
    + cbn [lookup list_lookup] in Hfitted, Hi.
      destruct (convex_loop_spec _ _ _ _ _ Hi Hfitted)
        as [_ [-> | (j & [xj yj] & Hj & Hearlier & <-)]].
      * by exists 0%nat; split; [lia |].
      * exists (S j). split; [lia |]. cbn [lookup list_lookup].
        by apply lookup_zip_with_Some in Hearlier as (? & ? & [= <- <-] & _ & ?).
Qed.

Lemma convex_fit_envelope_witness :
  float_gt (Fin 0.3) (Fin 0.5) = false
  ∧ ∃ j, j ≤ 2 ∧ [Fin 0.2; Fin 0.5; Fin 0.3] !! j = Some (Fin 0.5).
Proof.
  destruct (convex_fit_envelope [Fin 7; Fin 7; Fin 7] [Fin 0.2; Fin 0.5; Fin 0.3])
    as (_ & Hbelow & Hfrom).
  split.
  - apply (Hbelow 2%nat (Fin 0.3) (Fin 0.5)); reflexivity.
  - apply (Hfrom (Fin 7) 2%nat (Fin 0.5)); reflexivity.
Defined.

(** ** [model_years] and the x axis of [plot_all] *)

Lemma plot_all_x_dict (lib : library) (model_meta : list meta_row) (columns : model_columns)
    (models : list string) (neural_csv : option (list neural_row)) (mode : Mode)
    (rows : list row) (d : gmap string float) :
  (prepare_data lib model_meta models neural_csv).2 = Ok rows →
  mode_dict model_meta columns mode = Some d →
  plot_all_x lib model_meta columns models neural_csv mode
  = lookup_all d models ≫= set_column rows.
Proof.
  intros Hrows Hmode. unfold plot_all_x. rewrite Hrows, bind_Ok_l.
  destruct mode; try done; injection Hmode as <-;
    by destruct (lookup_all _ models).
Qed.

Lemma lookup_all_Ok (d : gmap string float) (models : list string) (x : list float) :
  lookup_all d models = Ok x ↔ Forall2 (fun name v => d !! name = Some v) models x.
Proof.
  unfold lookup_all. rewrite for_each_Ok. split; intros Hall;
    (eapply Forall2_impl; [exact Hall |]); intros name v; cbn;
    destruct (d !! name); congruence.
Qed.

Lemma lookup_all_total (d : gmap string float) (models : list string) :
  Forall (fun name => is_Some (d !! name)) models →
  ∃ x, lookup_all d models = Ok x ∧ length x = length models.
Proof.
  induction 1 as [|name models [v Hv] _ (x & Hx & Hlen)]; [by exists [] |].
  exists (v :: x). unfold lookup_all in *. cbn [for_each]. rewrite Hv, bind_Ok_l, Hx.
  split; [done |]. cbn. by rewrite Hlen.
Qed.

(** In every mode but the performance mode, the x values are looked up for
    the model list and assigned to the table by position: [plot_all] gets
    as far as its plots only if every model of the list has an entry and the
    table has as many rows as the list has models, and then row [i] has the
    value of the [i]-th model of the list, whichever model the row is of.
    A model without an entry raises its [KeyError]; a table of another
    length raises the [ValueError] of the assignment. *)
Theorem plot_all_x_by_position (lib : library) (model_meta : list meta_row)
    (columns : model_columns) (models : list string) (neural_csv : option (list neural_row))
    (mode : Mode) (rows : list row) (d : gmap string float) :
  (prepare_data lib model_meta models neural_csv).2 = Ok rows →
  mode_dict model_meta columns mode = Some d →
  (∀ table,
     plot_all_x lib model_meta columns models neural_csv mode = Ok table →
     table.*1 = rows
     ∧ length rows = length models
     ∧ ∀ i name, models !! i = Some name → table.*2 !! i = d !! name)
  ∧ (∀ known unknown rest,
       models = known ++ unknown :: rest →
       Forall (fun name => is_Some (d !! name)) known →
       d !! unknown = None →
       plot_all_x lib model_meta columns models neural_csv mode = Raise (KeyError unknown))
  ∧ (Forall (fun name => is_Some (d !! name)) models →
     length rows ≠ length models →
     plot_all_x lib model_meta columns models neural_csv mode
     = Raise (ValueError "Length of values does not match length of index")).
Proof.
  intros Hrows Hmode. rewrite (plot_all_x_dict _ _ _ _ _ _ _ _ Hrows Hmode).
  split; [| split].
  - intros table (x & Hx%lookup_all_Ok & Hset)%bind_Ok. unfold set_column in Hset.
    pose proof (Forall2_length _ _ _ Hx) as Hlen.
    destruct (Nat.eqb_spec (length x) (length rows)) as [Heq | _]; [| done].
    injection Hset as <-. rewrite fst_zip, snd_zip by lia.
    split; [done |]. split; [lia |]. intros i name Hname.
    destruct (Forall2_lookup_l _ _ _ _ _ Hx Hname) as (v & -> & Hv). done.
  - intros known unknown rest -> Hknown Hunknown. unfold lookup_all.
    rewrite for_each_Raise with (e := KeyError unknown); [done | | by rewrite Hunknown].
    eapply Forall_impl; [exact Hknown |]. intros name [v ->]. by eexists.
  - intros Hall Hlen.
    destruct (lookup_all_total d models Hall) as (x & -> & Hx).
    rewrite bind_Ok_l. unfold set_column.
    destruct (Nat.eqb_spec (length x) (length rows)) as [Heq | _]; [lia | done].
Qed.

(** The model list names [alexnet] first, the saved table has it last: the
    row of [resnet-18] gets the depth of [alexnet]. *)
Example plot_all_x_swapped :
  (fun rx => (model (neural (scores rx.1)), rx.2))
    <$> default [] (match plot_all_x example_lib example_meta example_columns
                            ["alexnet"; "resnet-18"]
                            (Some [NeuralRow "resnet-18" (Fin 0.6) (Fin 0.01) (Fin 0.5) (Fin 0.02);
                                   saved_alexnet])
                            DEPTH_VS_SCORE with
                    | Ok table => Some table
                    | Raise _ => None
                    end)
  = [("resnet-18", Fin 8); ("alexnet", Fin 18)].
Proof. vm_compute. reflexivity. Qed.

Lemma plot_all_x_by_position_witness :
  plot_all_x example_lib example_meta example_columns ["alexnet"; "vgg-16"]
    (Some [saved_alexnet]) DEPTH_VS_SCORE
  = Raise (KeyError "vgg-16")
  ∧ plot_all_x example_lib example_meta example_columns ["alexnet"; "resnet-18"]
      (Some [saved_alexnet]) DEPTH_VS_SCORE
    = Raise (ValueError "Length of values does not match length of index").
Proof.
  split.
  - apply (proj1 (proj2 (plot_all_x_by_position example_lib example_meta example_columns
                           ["alexnet"; "vgg-16"] (Some [saved_alexnet]) DEPTH_VS_SCORE
                           [alexnet_row] (model_depth example_columns) eq_refl eq_refl))
             ["alexnet"] "vgg-16" []); [reflexivity | | reflexivity].
    repeat constructor. by eexists.
  - apply (proj2 (proj2 (plot_all_x_by_position example_lib example_meta example_columns
                           ["alexnet"; "resnet-18"] (Some [saved_alexnet]) DEPTH_VS_SCORE
                           [alexnet_row] (model_depth example_columns) eq_refl eq_refl))).
    + repeat constructor; by eexists.
    + discriminate.
Defined.

Lemma prefix_of_both (s : string) :
  ∀ p q, String.prefix p s = true → String.prefix q s = true →
         String.prefix p q = true ∨ String.prefix q p = true.
Proof.
  induction s as [|c s IH]; intros [|a p] [|b q]; cbn [String.prefix]; try (by auto).
  destruct (ascii_dec a c) as [-> | _]; [| done].
  destruct (ascii_dec b c) as [-> | _]; [| done].
  intros Hp Hq. destruct (ascii_dec c c) as [_ | ?]; [by apply IH | done].
Qed.

Lemma _model_years_incomparable (i j : nat) (a b : string * float) :
  _model_years !! i = Some a → _model_years !! j = Some b →
  String.prefix a.1 b.1 = true → i = j.
Proof.
  intros Hi Hj Hprefix.
  assert (forallb (fun i =>
            forallb (fun j =>
              match _model_years !! i, _model_years !! j with
              | Some a, Some b => implb (String.prefix a.1 b.1) (i =? j)%nat
              | _, _ => true
              end) (seq 0 9)) (seq 0 9) = true) as Hcheck by (vm_compute; reflexivity).
  pose proof (lookup_lt_Some _ _ _ Hi) as Hlti. pose proof (lookup_lt_Some _ _ _ Hj) as Hltj.
  change (length _model_years) with 9%nat in Hlti, Hltj.
  rewrite forallb_forall in Hcheck. specialize (Hcheck i).
  rewrite forallb_forall in Hcheck.
  assert (List.In i (seq 0 9)) as Hini by (apply in_seq; lia).
  assert (List.In j (seq 0 9)) as Hinj by (apply in_seq; lia).
  specialize (Hcheck Hini j Hinj). rewrite Hi, Hj, Hprefix in Hcheck.
  by apply Nat.eqb_eq.
Qed.

Lemma year_of_match (name prefix : string) (year : float) :
  (prefix, year) ∈ _model_years → String.prefix prefix name = true →
  year_of name = Some year.
Proof.
  intros Hin Hprefix. unfold year_of.
  destruct (filter (fun prefix_year : string * float =>
                      String.prefix prefix_year.1 name = true) _model_years)
    as [|[q y] matches] eqn:Hfilter.
  - assert ((prefix, year) ∈ filter (fun prefix_year : string * float =>
                                       String.prefix prefix_year.1 name = true) _model_years)
      as Hmatch by (by apply list_elem_of_filter).
    rewrite Hfilter in Hmatch. by apply not_elem_of_nil in Hmatch.
  - assert ((q, y) ∈ filter (fun prefix_year : string * float =>
                               String.prefix prefix_year.1 name = true) _model_years)
      as [Hq Hqin]%list_elem_of_filter by (rewrite Hfilter; left).
    cbn [fst] in Hq. cbn [fmap list_fmap head snd]. f_equal.
    apply list_elem_of_lookup_1 in Hin as [i Hi]. apply list_elem_of_lookup_1 in Hqin as [j Hj].
    destruct (prefix_of_both name prefix q Hprefix Hq) as [Hpq | Hqp].
    + pose proof (_model_years_incomparable i j _ _ Hi Hj Hpq) as ->. congruence.
    + pose proof (_model_years_incomparable j i _ _ Hj Hi Hqp) as ->. congruence.
Qed.

(** A model has a year exactly when it has an entry in [model_performance]
    and its name starts with one of the nine prefixes of [_model_years]; the
    year is that of the prefix.  No name starts with two of the prefixes,
    so taking the first match loses nothing. *)
Theorem model_years_lookup (model_meta : list meta_row) (name : string) (year : float) :
  (model_years model_meta !! name = Some year
   ↔ is_Some (model_performance model_meta !! name)
     ∧ ∃ prefix, (prefix, year) ∈ _model_years ∧ String.prefix prefix name = true)
  ∧ length (filter (fun prefix_year => String.prefix prefix_year.1 name = true) _model_years)
    ≤ 1.
Proof.
  split.
  - unfold model_years. rewrite map_lookup_imap. split.
    + destruct (model_performance model_meta !! name) as [p|]; [| done]. cbn.
      intros Hyear. split; [done |]. unfold year_of in Hyear.
      destruct (filter (fun prefix_year : string * float =>
                          String.prefix prefix_year.1 name = true) _model_years)
        as [|[q y] matches] eqn:Hfilter; [done |].
      injection Hyear as <-. exists q.
      assert ((q, y) ∈ filter (fun prefix_year : string * float =>
                                 String.prefix prefix_year.1 name = true) _model_years)
        as [Hq Hqin]%list_elem_of_filter by (rewrite Hfilter; left).
      done.
    + intros [[p ->] (prefix & Hin & Hprefix)]. cbn. by eapply year_of_match.
  - destruct (filter (fun prefix_year : string * float =>
                        String.prefix prefix_year.1 name = true) _model_years)
      as [|[q y] [|[q' y'] matches]] eqn:Hfilter; cbn [length]; [lia | lia |].
    exfalso.
    assert (NoDup (filter (fun prefix_year : string * float =>
                             String.prefix prefix_year.1 name = true) _model_years)) as Hnodup.
    { apply NoDup_filter, (NoDup_fmap_1 fst).
      apply (bool_decide_unpack (NoDup _model_years.*1)). by vm_compute. }
    assert ((q, y) ∈ filter (fun prefix_year : string * float =>
                               String.prefix prefix_year.1 name = true) _model_years)
      as [Hq Hqin]%list_elem_of_filter by (rewrite Hfilter; left).
    assert ((q', y') ∈ filter (fun prefix_year : string * float =>
                                 String.prefix prefix_year.1 name = true) _model_years)
      as [Hq' Hqin']%list_elem_of_filter by (rewrite Hfilter; right; left).
    cbn [fst] in Hq, Hq'.
    apply list_elem_of_lookup_1 in Hqin as [i Hi].
    apply list_elem_of_lookup_1 in Hqin' as [j Hj].
    assert (i = j) as ->.
    { destruct (prefix_of_both name q q' Hq Hq') as [Hpq | Hqp].
      - by eapply _model_years_incomparable.
      - symmetry. by eapply _model_years_incomparable. }
    assert ((q, y) = (q', y')) as [= -> ->] by congruence.
    rewrite Hfilter in Hnodup.
    apply NoDup_cons in Hnodup as [Hnotin _]. apply Hnotin. left.
Qed.

Lemma model_years_lookup_witness :
  model_years example_meta !! "resnet-18" = Some (Fin 2015).
Proof.
  apply (proj1 (model_years_lookup example_meta "resnet-18" (Fin 2015))). split.
  - by eexists.
  - exists "resnet". split; [| reflexivity]. do 2 right. left.
Defined.

(** ** One node per leaf *)

Lemma leaf_paths_of_items_elem (path : list string) (subs : OrderedDict.t Module)
    (full : list string) (leaf : Module) :
  (full, leaf) ∈ leaf_paths_of_items path subs
  ↔ ∃ n sub, (n, sub) ∈ subs ∧ (full, leaf) ∈ leaf_paths sub (path ++ [n]).
Proof.
  induction subs as [|[n sub] subs IH]; cbn [leaf_paths_of_items].
  - split; [by intros ?%not_elem_of_nil | by intros (? & ? & ?%not_elem_of_nil & _)].
  - rewrite elem_of_app, IH. setoid_rewrite elem_of_cons. naive_solver.
Qed.

Lemma leaf_paths_NoDup (module : Module) :
  well_formed module → ∀ path, NoDup (leaf_paths module path).*1.
Proof.
  induction module as [id cls subs IH] using Module_ind. intros Hwf path.
  inversion Hwf as [id' cls' subs' _ Hkeys Hsubs]; subst.
  rewrite leaf_paths_unfold. destruct subs as [|kv subs]; [apply NoDup_singleton |].
  generalize dependent (kv :: subs). clear kv subs. intros subs IH _ Hkeys Hsubs.
  induction subs as [|[n sub] subs IHsubs]; [constructor |].
  cbn [leaf_paths_of_items]. rewrite fmap_app.
  apply Forall_cons in IH as [IHsub IH]. apply Forall_cons in Hsubs as [[_ Hwfsub] Hsubs].
  cbn [fmap list_fmap fst] in Hkeys. apply NoDup_cons in Hkeys as [Hn Hkeys].
  apply NoDup_app. split; [by apply IHsub |]. split; [| by apply IHsubs].
  intros full ([full' leaf] & -> & Hin)%list_elem_of_fmap
    ([full'' leaf'] & Heq & Hin')%list_elem_of_fmap.
  cbn [fst] in Heq. subst full''.
  apply leaf_paths_at_path in Hin as (rel & -> & _).
  apply leaf_paths_of_items_elem in Hin' as (n' & sub' & Hsub' & Hin').
  apply leaf_paths_at_path in Hin' as (rel' & Heq & _).
  rewrite <- !app_assoc in Heq. apply app_inv_head in Heq. injection Heq as -> _.
  apply Hn. apply list_elem_of_fmap. by exists (n', sub').
Qed.

Lemma set_fresh {V : Type} (d : OrderedDict.t V) (k : string) (v : V) :
  k ∉ OrderedDict.keys d → OrderedDict.set d k v = d ++ [(k, v)].
Proof.
  unfold OrderedDict.keys. induction d as [|[k' v'] d IH]; [done |].
  cbn [fmap list_fmap fst OrderedDict.set app]. intros Hk.
  apply not_elem_of_cons in Hk as [Hne Hk].
  rewrite (proj2 (String.eqb_neq k' k)) by done. by rewrite IH.
Qed.

Lemma add_nodes_fresh (yielded : list (string * Module)) :
  ∀ g,
    NoDup (OrderedDict.keys (_node g) ++ yielded.*1) →
    OrderedDict.keys
      (_node (foldl (fun g y => add_node g y.1 {| object := y.2; type := class_name y.2 |})
                    g yielded))
    = OrderedDict.keys (_node g) ++ yielded.*1.
Proof.
  induction yielded as [|[n leaf] yielded IH]; intros g Hnodup; cbn [foldl].
  - by rewrite app_nil_r.
  - cbn [fmap list_fmap fst] in Hnodup. pose proof Hnodup as Hfresh.
    apply NoDup_app in Hfresh as (_ & Hfresh & _).
    assert (n ∉ OrderedDict.keys (_node g)) as Hn.
    { intros Hin. apply (Hfresh n Hin). left. }
    assert (OrderedDict.keys
              (_node (add_node g n {| object := leaf; type := class_name leaf |})) ++ yielded.*1
            = OrderedDict.keys (_node g) ++ n :: yielded.*1) as Hkeys.
    { cbn [add_node _node]. rewrite set_fresh by done. unfold OrderedDict.keys.
      by rewrite fmap_app, <- app_assoc. }
    cbn [fst snd]. rewrite IH; [exact Hkeys | by rewrite Hkeys].
Qed.

(** In a tree as torch builds it, no two leaves get the same name from
    [layers()], and [graph()] has exactly one node per leaf, in the order of
    the traversal. *)
Theorem graph_one_node_per_leaf (model : Module) :
  well_formed model →
  _modules model ≠ [] →
  NoDup (layers model).1.*1
  ∧ ∃ g, graph model = Ok g
         ∧ OrderedDict.keys (_node g) = (layers model).1.*1
         ∧ length (_node g) = length (leaf_paths model []).
Proof.
  intros Hwf Hsubs.
  assert (NoDup (layers model).1.*1) as Hnames.
  { rewrite (layers_with_submodules model Hsubs). cbn [fst]. unfold named.
    rewrite <- list_fmap_compose.
    apply NoDup_fmap_2_strong; [| by eapply NoDup_fmap_1, leaf_paths_NoDup].
    intros [p1 l1] [p2 l2] H1 H2 Hname. cbn in Hname.
    pose proof H1 as H1'. pose proof H2 as H2'.
    apply leaf_paths_at_path in H1' as (r1 & -> & Hat1 & Hleaf1).
    apply leaf_paths_at_path in H2' as (r2 & -> & Hat2 & Hleaf2). cbn [app] in *.
    destruct (at_path_descend _ _ _ Hat1 Hwf) as (_ & Hwf1 & Hr1).
    destruct (at_path_descend _ _ _ Hat2 Hwf) as (_ & Hwf2 & Hr2).
    assert (r1 ≠ [] ∧ r2 ≠ []) as [Hne1 Hne2].
    { split; intros ->; [inversion Hat1 | inversion Hat2]; by subst. }
    clear Hleaf1 Hleaf2.
    unfold leaf_name in Hname. cbn [fst snd] in Hname.
    rewrite <- !str_join_snoc in Hname by done.
    apply (f_equal (str_split SUBMODULE_SEPARATOR)) in Hname.
    rewrite !str_split_join in Hname;
      [| by destruct r2 | apply Forall_app; split; [done | constructor; [| done]];
                          by inversion Hwf2
       | by destruct r1 | apply Forall_app; split; [done | constructor; [| done]];
                          by inversion Hwf1].
    apply app_inj_tail in Hname as [-> _].
    pose proof (leaf_paths_NoDup model Hwf []) as Hpaths.
    f_equal.
    apply list_elem_of_lookup_1 in H1 as [i Hi]. apply list_elem_of_lookup_1 in H2 as [j Hj].
    assert (i = j) as ->; [| congruence].
    eapply NoDup_lookup; [exact Hpaths | |]; rewrite list_lookup_fmap.
    + by rewrite Hi.
    + by rewrite Hj. }
  split; [done |].
  unfold graph. rewrite (layers_with_submodules model Hsubs) in *. cbn [fst snd] in *.
  eexists. split; [done |].
  rewrite add_nodes_fresh by done. cbn [_node OrderedDict.keys fmap list_fmap app].
  split; [done |].
  pose proof (add_nodes_fresh (named (leaf_paths model [])) {| _node := []; _edges := [] |} Hnames)
    as Hkeys.
  apply (f_equal length) in Hkeys. unfold OrderedDict.keys in Hkeys.
  rewrite length_fmap in Hkeys. rewrite Hkeys. cbn [_node fmap list_fmap app].
  unfold named. by rewrite !length_fmap.
Qed.

Lemma graph_one_node_per_leaf_witness :
  NoDup (layers small_net).1.*1
  ∧ ∃ g, graph small_net = Ok g
         ∧ OrderedDict.keys (_node g) = (layers small_net).1.*1
         ∧ length (_node g) = length (leaf_paths small_net []).
Proof.
  apply (graph_one_node_per_leaf small_net); [apply small_net_well_formed | discriminate].
Defined.
